(** * VTEX → schema.org transformation layer ([commerce/vtex/transform.ts])

    A shallow embedding of the product / offer / facet mapping functions
    of [transform.ts], followed by the properties the storefront
    specification states about them.

    Layout of the development:
    - [JS]        the pieces of the JavaScript runtime the code relies on
                  (numbers, string and array built-ins, exceptions,
                  [URL] and [URLSearchParams]);
    - [VTEX]      the vendor shapes ([./types.ts]) as far as
                  [transform.ts] reads them;
    - [Schema]    the canonical shapes ([./../types.ts]);
    - [Transform] the functions of [transform.ts], in source order;
    - the lemmas. *)

From Stdlib Require Import Ascii String QArith Lqa.
From stdpp Require Import base option list sorting strings gmap.

Close Scope Q_scope.

(* ===================================================================== *)
(** ** The JavaScript runtime *)
(* ===================================================================== *)

Module JS.

(** *** Numbers

    Every [number] the transformation touches is read out of the
    vendor's JSON payload, so it is a finite IEEE-754 double.  Finite
    doubles are dyadic rationals and embed exactly into [Q]; the only
    arithmetic the code performs on them is the subtraction
    [a.price - b.price] inside a comparator, whose floating-point
    result has the sign of the exact difference (gradual underflow keeps
    a nonzero difference nonzero, overflow keeps its sign). *)
Definition number := Q.

Definition num_lt (a b : number) : bool := negb (Qle_bool b a).
Definition num_le (a b : number) : bool := Qle_bool a b.

(** *** Exceptions

    [Error] is the exception the code raises itself with
    [throw new Error(...)]; [TypeError] is what the runtime raises when
    a property of [undefined] is read or [undefined] is called. *)
Inductive error :=
| Error (message : string)
| TypeError (message : string).

(** The result of running a piece of code: a value, an exception, or
    the exhaustion of the recursion budget of a fuelled definition. *)
Inductive outcome (A : Type) :=
| Ok (a : A)
| Throw (e : error)
| OutOfFuel.
Arguments Ok {A} a.
Arguments Throw {A} e.
Arguments OutOfFuel {A}.

#[export] Instance outcome_ret : MRet outcome := λ A a, Ok a.
#[export] Instance outcome_bind : MBind outcome := λ A B f m,
  match m with
  | Ok a => f a
  | Throw e => Throw e
  | OutOfFuel => OutOfFuel
  end.
#[export] Instance outcome_fmap : FMap outcome := λ A B f m,
  match m with
  | Ok a => Ok (f a)
  | Throw e => Throw e
  | OutOfFuel => OutOfFuel
  end.

Definition throws {A} (m : outcome A) : Prop := ∃ e, m = Throw e.
Definition returns {A} (m : outcome A) : Prop := ∃ a, m = Ok a.

(** A computation that is either a value or an exception. *)
Definition halts {A} (m : outcome A) : Prop := m ≠ OutOfFuel.

(** A computation whose only exceptions are [TypeError]s. *)
Definition no_Error {A} (m : outcome A) : Prop := ∀ msg, m ≠ Throw (Error msg).

(** [array.map(f)] for a callback that may throw: elements are visited
    left to right and the first exception aborts the traversal. *)
Fixpoint Array_mapM {A B} (f : A → outcome B) (l : list A) : outcome (list B) :=
  match l with
  | [] => Ok []
  | x :: l' => y ← f x; ys ← Array_mapM f l'; mret (y :: ys)
  end.

(** [array.map((x, index) => ...)] for a callback that may throw and
    reads the index of the element. *)
Fixpoint Array_mapM_from {A B} (f : nat → A → outcome B) (index : nat)
    (l : list A) : outcome (list B) :=
  match l with
  | [] => Ok []
  | x :: l' => y ← f index x; ys ← Array_mapM_from f (S index) l'; mret (y :: ys)
  end.

Definition Array_imapM {A B} (f : nat → A → outcome B) (l : list A)
  : outcome (list B) :=
  Array_mapM_from f 0 l.

(** [array.flatMap(f)] for a callback that may throw. *)
Definition Array_flatMapM {A B} (f : A → outcome (list B)) (l : list A)
  : outcome (list B) :=
  @concat B <$> Array_mapM f l.

(** *** Strings *)

(** [s.split(sep)] for a one-character separator.  The result is never
    empty: [''.split(',')] is [['']]. *)
Fixpoint split (sep : ascii) (s : string) : list string :=
  match s with
  | EmptyString => [EmptyString]
  | String c s' =>
      if Ascii.eqb c sep then EmptyString :: split sep s'
      else match split sep s' with
           | [] => [String c EmptyString]
           | w :: ws => String c w :: ws
           end
  end.

(** [s.includes(c)] for a one-character string [c]. *)
Fixpoint includes (c : ascii) (s : string) : bool :=
  match s with
  | EmptyString => false
  | String a s' => Ascii.eqb a c || includes c s'
  end.

(** [array.join(sep)]. *)
Fixpoint join (sep : string) (l : list string) : string :=
  match l with
  | [] => EmptyString
  | [w] => w
  | w :: ws => w +:+ sep +:+ join sep ws
  end.

(** [array.filter(Boolean)] on an array of strings: the empty string is
    the only falsy string. *)
Definition truthy (s : string) : bool := negb (String.eqb s EmptyString).
Definition filter_Boolean (l : list string) : list string :=
  List.filter truthy l.

(** [s.startsWith(pat)]. *)
Fixpoint startsWith (pat s : string) : bool :=
  match pat with
  | EmptyString => true
  | String a pat' =>
      match s with
      | EmptyString => false
      | String b s' => Ascii.eqb a b && startsWith pat' s'
      end
  end.

Fixpoint string_drop (n : nat) (s : string) : string :=
  match n, s with
  | O, _ => s
  | S n', String _ s' => string_drop n' s'
  | S _, EmptyString => EmptyString
  end.

(** [s.replace(pat, rep)] with a string pattern: only the first
    occurrence is replaced.  (The replacement strings used by the code
    contain no [$] pattern.) *)
Fixpoint replace (pat rep s : string) : string :=
  if startsWith pat s then rep +:+ string_drop (String.length pat) s
  else match s with
       | EmptyString => EmptyString
       | String c s' => String c (replace pat rep s')
       end.

(** *** Arrays *)

(** [array.findIndex(p)]: [None] stands for [-1]. *)
Fixpoint findIndex {A} (p : A → bool) (l : list A) : option nat :=
  match l with
  | [] => None
  | x :: l' => if p x then Some 0 else S <$> findIndex p l'
  end.

(** [array.splice(i, n)] for [n] in {0, 1}, as [unselect] calls it. *)
Definition splice {A} (i n : nat) (l : list A) : list A :=
  take i l ++ drop (i + n) l.

(** [array.sort(cmp)].  ECMA-262 requires, for a consistent comparator,
    a permutation of the input that is ordered by the comparator, and
    (since ES2019) a stable one.  It is modelled by the stable
    insertion sort: an element moves in front of its right neighbour
    only when the comparator does not place it after. *)
Fixpoint sort_insert {A} (cmp : A → A → number) (x : A) (l : list A) : list A :=
  match l with
  | [] => [x]
  | y :: l' =>
      if num_le (cmp x y) 0%Q then x :: y :: l'
      else y :: sort_insert cmp x l'
  end.

Definition Array_sort {A} (cmp : A → A → number) (l : list A) : list A :=
  foldr (sort_insert cmp) [] l.

(** The order a comparator induces: [x] may stand before [y]. *)
Definition before {A} (cmp : A → A → number) (x y : A) : Prop :=
  (cmp x y <= 0)%Q.

(** A comparator is consistent when the order it induces is a total
    preorder. *)
Definition consistent {A} (cmp : A → A → number) : Prop :=
  (∀ x y, ¬ before cmp x y → before cmp y x)
  ∧ (∀ x y z, before cmp x y → before cmp y z → before cmp x z).

(** *** [URLSearchParams] and [URL]

    A [URLSearchParams] object is an ordered list of name/value pairs. *)
Definition URLSearchParams := list (string * string).

(** [params.append(name, value)]. *)
Definition params_append (name value : string) (ps : URLSearchParams)
  : URLSearchParams :=
  ps ++ [(name, value)].

(** [params.set(name, value)]: the first pair called [name] receives the
    value and the later ones are removed; without such a pair the new
    one is appended. *)
Fixpoint params_set (name value : string) (ps : URLSearchParams)
  : URLSearchParams :=
  match ps with
  | [] => [(name, value)]
  | (n, v) :: ps' =>
      if String.eqb n name
      then (name, value) :: List.filter (λ p, negb (String.eqb p.1 name)) ps'
      else (n, v) :: params_set name value ps'
  end.

(** The [application/x-www-form-urlencoded] byte serializer: letters,
    digits and [*-._] stay, a space becomes [+], every other byte is
    percent-encoded. *)
Definition is_alnum (c : ascii) : bool :=
  let n := N_of_ascii c in
  ((48 <=? n) && (n <=? 57) || (65 <=? n) && (n <=? 90)
   || (97 <=? n) && (n <=? 122))%N.

Definition hex_digit (n : N) : ascii :=
  if (n <? 10)%N then ascii_of_N (48 + n) else ascii_of_N (55 + n).

Definition urlencode_byte (c : ascii) : string :=
  if is_alnum c || bool_decide (c ∈ ["*"; "-"; "."; "_"]%char)
  then String c EmptyString
  else if Ascii.eqb c " " then "+"
  else let n := N_of_ascii c in
       String "%" (String (hex_digit (n / 16)) (String (hex_digit (n mod 16)) EmptyString)).

Fixpoint urlencode (s : string) : string :=
  match s with
  | EmptyString => EmptyString
  | String c s' => urlencode_byte c +:+ urlencode s'
  end.

(** [params.toString()]. *)
Definition params_toString (ps : URLSearchParams) : string :=
  join "&" ((λ p, urlencode p.1 +:+ "=" +:+ urlencode p.2) <$> ps).

Definition hex_value (c : ascii) : option N :=
  let n := N_of_ascii c in
  if ((48 <=? n) && (n <=? 57))%N then Some (n - 48)%N
  else if ((65 <=? n) && (n <=? 70))%N then Some (n - 55)%N
  else if ((97 <=? n) && (n <=? 102))%N then Some (n - 87)%N
  else None.

(** Percent-decoding, with [+] for a space.  A string stands for the
    UTF-8 encoding of a JavaScript string, so the bytes that come out are
    the parser's result whenever they are well-formed UTF-8, as are the
    bytes of every string the serializer has written; the parser's
    replacement of ill-formed bytes by U+FFFD is not part of the
    definition. *)
Fixpoint urldecode (s : string) : string :=
  match s with
  | EmptyString => EmptyString
  | String c rest =>
      if Ascii.eqb c "+" then String " " (urldecode rest)
      else if Ascii.eqb c "%" then
        match rest with
        | String a (String b s') =>
            match hex_value a, hex_value b with
            | Some x, Some y => String (ascii_of_N (16 * x + y)) (urldecode s')
            | _, _ => String c (urldecode rest)
            end
        | _ => String c (urldecode rest)
        end
      else String c (urldecode rest)
  end.

(** Splitting a [name=value] sequence at its first [=]. *)
Fixpoint split_pair (s : string) : string * string :=
  match s with
  | EmptyString => (EmptyString, EmptyString)
  | String c s' =>
      if Ascii.eqb c "=" then (EmptyString, s')
      else let '(n, v) := split_pair s' in (String c n, v)
  end.

(** The [application/x-www-form-urlencoded] parser, applied to a
    [search] string (with or without its leading [?]). *)
Definition params_parse (search : string) : URLSearchParams :=
  let query := match search with
               | String "?" q => q
               | _ => search
               end in
  (λ s, let '(n, v) := split_pair s in (urldecode n, urldecode v))
    <$> filter_Boolean (split "&" query).

(** A [URL] object, as far as the code reads it.  [origin] is the
    serialization of the scheme, host and port of the URL (as for every
    http(s) URL), or [null] for a URL without such an origin.
    [href_prefix] is the part of [href] in front of the path (scheme,
    credentials, host and port); [search] is either empty or starts with
    [?], [hash] is either empty or starts with [#]. *)
Record URL := {
  origin : string;
  href_prefix : string;
  pathname : string;
  search : string;
  hash : string;
}.

Definition href (u : URL) : string :=
  href_prefix u +:+ pathname u +:+ search u +:+ hash u.

(** The URL parser of the platform (the URL Standard) either returns a
    URL or rejects its input.  On input other than the plain paths
    below (input with [?], [#], [\], [%], [:], blanks, bytes that need
    percent-encoding, dot segments, or [//] in front, which starts a
    host), and on the base [null], the development is parametric in the
    parser. *)
Inductive parsed :=
| Parsed (url : URL)
| Invalid (message : string).

Class URLStandard := parse_URL : string → string → parsed.

(** The characters of a plain path: letters, digits and [-_.~/].  The
    parser keeps each of them as it is in a path. *)
Definition plain_char (c : ascii) : bool :=
  is_alnum c || bool_decide (c ∈ ["-"; "_"; "."; "~"; "/"]%char).

Fixpoint every_char (p : ascii → bool) (s : string) : bool :=
  match s with
  | EmptyString => true
  | String c s' => p c && every_char p s'
  end.

(** The segments [.] and [..] are removed by the parser. *)
Definition dot_segment (segment : string) : bool :=
  String.eqb segment "." || String.eqb segment "..".

(** A plain path: plain characters only, no [//] in front, and no dot
    segment. *)
Definition plain_path (input : string) : bool :=
  every_char plain_char input
  && negb (startsWith "//" input)
  && forallb (λ segment, negb (dot_segment segment)) (split "/" input).

(** An origin that is not [null] is a URL of its own: the scheme, host
    and port of the URL it was read from. *)
Definition tuple_origin (base : string) : bool := negb (String.eqb base "null").

(** [new URL(input, base)] for the [origin] [base] of a URL.  On an
    origin other than [null], a plain path is resolved against the root
    of the origin: it becomes the path of the result, with a [/] in
    front when it has none (the empty input gives [/]), and the result
    has neither a query nor a fragment.  A rejected input raises a
    [TypeError]. *)
Definition new_URL `{URLStandard} (input base : string) : outcome URL :=
  if plain_path input && tuple_origin base
  then Ok {| origin := base;
             href_prefix := base;
             pathname := if startsWith "/" input then input else "/" +:+ input;
             search := "";
             hash := "" |}
  else match parse_URL input base with
       | Parsed url => Ok url
       | Invalid message => Throw (TypeError message)
       end.

(** [url.searchParams]. *)
Definition searchParams (u : URL) : URLSearchParams := params_parse (search u).

(** The effect of updating [url.searchParams] on the URL: its query
    becomes the serialization of the list. *)
Definition with_searchParams (u : URL) (ps : URLSearchParams) : URL :=
  let q := params_toString ps in
  {| origin := origin u;
     href_prefix := href_prefix u;
     pathname := pathname u;
     search := if String.eqb q "" then "" else "?" +:+ q;
     hash := hash u |}.

(** [url.searchParams.set(name, value)]. *)
Definition searchParams_set (name value : string) (u : URL) : URL :=
  with_searchParams u (params_set name value (searchParams u)).

(** [url.search = s]. *)
Definition set_search (s : string) (u : URL) : URL :=
  {| origin := origin u;
     href_prefix := href_prefix u;
     pathname := pathname u;
     search := if String.eqb s "" then ""
               else if startsWith "?" s then s else "?" +:+ s;
     hash := hash u |}.

End JS.
Export JS.

(* ===================================================================== *)
(** ** Vendor shapes ([./types.ts]) *)
(* ===================================================================== *)

(** The declarations of [./types.ts] are read off [transform.ts]: each
    record lists the fields the module reads, at the type it reads them
    at. *)
Module VTEX.

Record Installment := {
  PaymentSystemName : string;
  inst_Name : string;
  NumberOfInstallments : number;
  inst_Value : number;
  TotalValuePlusInterestRate : number;
}.

(** [spotPrice] is optional: [None] stands for an absent (or [null])
    field. *)
Record CommertialOffer := {
  spotPrice : option number;
  Price : number;
  ListPrice : number;
  PriceValidUntil : string;
  AvailableQuantity : number;
  Installments : list Installment;
}.

Record SellerVTEX := {
  sellerId : string;
  commertialOffer : CommertialOffer;
}.

Record Image := {
  imageUrl : string;
  imageText : option string;
}.

(** An entry of [sku.variations]: the legacy catalog lists the names of
    the variations (their values are further fields of the sku, keyed
    by that name), intelligent search lists [{name, values}] objects. *)
Inductive Variation :=
| VariationName (name : string)
| VariationSpec (name : string) (values : list string).

(** [Item] and [LegacyItem] (imported as [SkuVTEX] and [LegacySkuVTEX]).  [sku_fields] holds the further
    string-array valued fields of the object, which the code reaches by
    a computed key ([sku[variation]]). *)
Record SkuVTEX := {
  itemId : string;
  sku_name : string;
  ean : string;
  variations : option (list Variation);
  sku_fields : gmap string (list string);
  images : option (list Image);
  sellers : list SellerVTEX;
}.

Record Property := {
  prop_name : string;
  prop_values : list string;
}.

(** [Product] and [LegacyProduct] (imported as [ProductVTEX] and
    [LegacyProductVTEX]).  [product_origin] is the [origin]
    field, absent from legacy responses; [product_fields] holds the
    further string-array valued fields of the object, which the code
    reaches by a computed key ([product[name]]). *)
Record ProductVTEX := {
  product_origin : option string;
  brand : string;
  productId : string;
  productReference : string;
  product_description : string;
  releaseDate : string;
  productName : string;
  linkText : string;
  categories : list string;
  categoriesIds : list string;
  items : list SkuVTEX;
  allSpecifications : option (list string);
  product_fields : gmap string (list string);
  properties : option (list Property);
}.

(** Assignment to the [categories] field of a product object. *)
Definition set_categories (cs : list string) (p : ProductVTEX) : ProductVTEX :=
  {| product_origin := product_origin p;
     brand := brand p;
     productId := productId p;
     productReference := productReference p;
     product_description := product_description p;
     releaseDate := releaseDate p;
     productName := productName p;
     linkText := linkText p;
     categories := cs;
     categoriesIds := categoriesIds p;
     items := items p;
     allSpecifications := allSpecifications p;
     product_fields := product_fields p;
     properties := properties p |}.

(** [product[name]] for a computed key, at the type the code casts the
    product to ([Record<string, string[]>]): the fields above that hold
    an array of strings are read where they are, every other name in
    [product_fields]. *)
Definition product_property (p : ProductVTEX) (name : string)
  : option (list string) :=
  if String.eqb name "categories" then Some (categories p)
  else if String.eqb name "categoriesIds" then Some (categoriesIds p)
  else if String.eqb name "allSpecifications" then allSpecifications p
  else product_fields p !! name.

(** The names listed by the [variations] of a legacy sku. *)
Definition variation_names (vs : list Variation) : option (list string) :=
  mapM (λ v, match v with
             | VariationName name => Some name
             | VariationSpec _ _ => None
             end) vs.

(** [sku[variation]] for a computed key, likewise: [variations] itself
    is the array of names of a legacy sku, every other name is read in
    [sku_fields]. *)
Definition sku_property (sku : SkuVTEX) (name : string) : option (list string) :=
  if String.eqb name "variations" then variations sku ≫= variation_names
  else sku_fields sku !! name.

Record LegacyFacet := {
  Map : string;
  Value : string;
  LinkEncoded : string;
  Quantity : number;
  Name : string;
}.

End VTEX.
Export VTEX.

(* ===================================================================== *)
(** ** Canonical shapes ([./../types.ts]) *)
(* ===================================================================== *)

(** The declarations of [./../types.ts], read off the object literals
    that [transform.ts] builds.  The constant ["@type"] tags are left
    out: each record type stands for its tag. *)
Module Schema.

Record PropertyValue := {
  pv_name : string;
  pv_value : string;
  valueReference : option string;
}.

Record UnitPriceSpecification := {
  priceType : string;
  priceComponentType : option string;
  ups_name : option string;
  ups_description : option string;
  billingDuration : option number;
  billingIncrement : option number;
  ups_price : number;
}.

Record Offer := {
  price : number;
  seller : string;
  priceValidUntil : string;
  inventoryLevel : number;
  priceSpecification : list UnitPriceSpecification;
  availability : string;
}.

(** [highPrice] and [lowPrice] may be [null] ([None]). *)
Record AggregateOffer := {
  priceCurrency : string;
  highPrice : option number;
  lowPrice : option number;
  offerCount : nat;
  offers : list Offer;
}.

Record ImageObject := {
  alternateName : string;
  image_url : string;
}.

Record ProductGroup (P : Type) := {
  productGroupID : string;
  hasVariant : list P;
  group_url : string;
  group_name : string;
  group_additionalProperty : list PropertyValue;
  model : string;
}.
Arguments productGroupID {P}.
Arguments hasVariant {P}.
Arguments group_url {P}.
Arguments group_name {P}.
Arguments group_additionalProperty {P}.
Arguments model {P}.

(** [aggregateOffer] is the [offers] field of the product; [None]
    stands for [undefined]. *)
#[warnings="-register-all"]
Inductive Product := mkProduct {
  category : string;
  productID : string;
  url : string;
  name : string;
  description : string;
  product_brand : string;
  sku : string;
  gtin : string;
  product_releaseDate : string;
  additionalProperty : list PropertyValue;
  isVariantOf : ProductGroup Product;
  image : list ImageObject;
  aggregateOffer : option AggregateOffer;
}.

(** [name] is [undefined] ([None]) for a category path without a
    segment. *)
Record ListItem := {
  item_name : option string;
  item : string;
  position : nat;
}.

Record BreadcrumbList := {
  itemListElement : list ListItem;
  numberOfItems : nat;
}.

Record ProductDetailsPage := {
  breadcrumbList : BreadcrumbList;
  product : Product;
}.

Record FilterToggleValue := {
  toggle_value : string;
  toggle_quantity : number;
  toggle_url : string;
  toggle_label : string;
  selected : bool;
}.

Record FilterToggle := {
  filter_quantity : nat;
  filter_label : string;
  filter_key : string;
  filter_values : list FilterToggleValue;
}.

End Schema.
Export Schema.

(* ===================================================================== *)
(** ** The transformation ([transform.ts]) *)
(* ===================================================================== *)

(** [./utils/slugify.ts] is an external collaborator of the module: the
    development is parametric in it. *)
Class Slugify := slugify : string → string.

Record ProductOptions := {
  options_url : URL;
  options_priceCurrency : string;
}.

Record SelectedFacet := {
  key : string;
  value : string;
}.

Section Transform.
Context `{Slugify} `{URLStandard}.

Definition isLegacySku (sku : SkuVTEX) : bool :=
  match variations sku with
  | Some (VariationName _ :: _) => true
  | _ => false
  end.

Definition isLegacyProduct (product : ProductVTEX) : bool :=
  negb (bool_decide (product_origin product = Some "intelligent-search")).

Definition getCanonicalURL (url : URL) (linkText : string) : outcome URL :=
  new_URL ("/" +:+ linkText +:+ "/p") (origin url).

(** [skuId] is an optional parameter; the empty string is falsy. *)
Definition getProductURL (url : URL) (linkText : string) (skuId : option string)
  : outcome URL :=
  canonicalUrl ← getCanonicalURL url linkText;
  mret (match skuId with
        | Some id => if truthy id then searchParams_set "skuId" id canonicalUrl
                     else canonicalUrl
        | None => canonicalUrl
        end).

Definition nonEmptyArray {T} (array : option (list T)) : option (list T) :=
  match array with
  | Some (x :: l) => Some (x :: l)
  | _ => None
  end.

Definition DEFAULT_IMAGE : Image :=
  {| imageText := Some "image";
     imageUrl := "https://storecomponents.vtexassets.com/assets/faststore/images/image___117a6d3e229a96ad0e0d0876352566e2.svg" |}.

Definition inStock (offer : Offer) : bool :=
  String.eqb (availability offer) "https://schema.org/InStock".

(** Smallest available spot price first. *)
Definition bestOfferFirst (a b : Offer) : number :=
  if inStock a && negb (inStock b) then (-1)%Q
  else if negb (inStock a) && inStock b then 1%Q
  else (price a - price b)%Q.

(** The body of the [for] loop of [getHighPriceIndex], counting [it]
    down while it is positive and [offers[it]] is out of stock. *)
Fixpoint highPriceLoop (offers : list Offer) (it : nat) : nat :=
  match it with
  | O => O
  | S it' =>
      match offers !! it with
      | Some offer => if negb (inStock offer) then highPriceLoop offers it' else it
      | None => it
      end
  end.

Definition getHighPriceIndex (offers : list Offer) : Z :=
  match offers with
  | [] => (-1)%Z
  | _ => Z.of_nat (highPriceLoop offers (length offers - 1))
  end.

(** [offers[i]] for a possibly negative index. *)
Definition offer_at (offers : list Offer) (i : Z) : option Offer :=
  if (i <? 0)%Z then None else offers !! Z.to_nat i.

(** [firstCategory] is [product.categories[0]], which is [undefined]
    for an empty array; calling [split] on it raises a [TypeError]. *)
Definition splitCategory (firstCategory : option string) : outcome (list string) :=
  match firstCategory with
  | Some c => Ok (filter_Boolean (split "/" c))
  | None => Throw (TypeError "Cannot read properties of undefined (reading 'split')")
  end.

Definition toAdditionalPropertyCategories (product : ProductVTEX)
  : outcome (list PropertyValue) :=
  categories ← splitCategory (categories product !! 0);
  categoryIds ← splitCategory (categoriesIds product !! 0);
  mret (((λ category,
           {| pv_name := "category"; pv_value := category;
              valueReference := None |}) <$> categories)
        ++ ((λ categoryId,
              {| pv_name := "categoryId"; pv_value := categoryId;
                 valueReference := None |}) <$> categoryIds)).

Definition specification (name value : string) : PropertyValue :=
  {| pv_name := name; pv_value := value;
     valueReference := Some "SPECIFICATION" |}.

(** [values.map(...)] where [values] is the result of a computed-key
    lookup, [undefined] when the object has no such field. *)
Definition map_values {B} (values : option (list string)) (f : string → B)
  : outcome (list B) :=
  match values with
  | Some vs => Ok (f <$> vs)
  | None => Throw (TypeError "Cannot read properties of undefined (reading 'map')")
  end.

Definition legacyToProductGroupAdditionalProperties (product : ProductVTEX)
  : outcome (list PropertyValue) :=
  match allSpecifications product with
  | Some names =>
      Array_flatMapM
        (λ name, map_values (product_property product name) (specification name))
        names
  | None => Ok []
  end.

Definition toProductGroupAdditionalProperties (product : ProductVTEX)
  : list PropertyValue :=
  let properties := default [] (properties product) in
  mjoin ((λ p, (λ value,
                  {| pv_name := prop_name p; pv_value := value;
                     valueReference := Some "PROPERTY" |}) <$> prop_values p)
           <$> properties).

(** Destructuring [{ name, values }] from a string entry leaves
    [values] undefined. *)
Definition toAdditionalProperties (sku : SkuVTEX) : outcome (list PropertyValue) :=
  match variations sku with
  | Some vs =>
      Array_flatMapM
        (λ v, match v with
              | VariationSpec name values => map_values (Some values) (specification name)
              | VariationName _ => map_values None (specification "")
              end)
        vs
  | None => Ok []
  end.

(** An object used as a computed key is converted to the string
    ["[object Object]"]. *)
Definition toAdditionalPropertiesLegacy (sku : SkuVTEX) : outcome (list PropertyValue) :=
  match variations sku with
  | Some vs =>
      Array_flatMapM
        (λ v, match v with
              | VariationName variation =>
                  map_values (sku_property sku variation) (specification variation)
              | VariationSpec _ _ =>
                  map_values (sku_property sku "[object Object]")
                             (specification "[object Object]")
              end)
        vs
  | None => Ok []
  end.

Definition toOffer (s : SellerVTEX) : Offer :=
  let offer := commertialOffer s in
  {| price := default (Price offer) (spotPrice offer);
     seller := sellerId s;
     priceValidUntil := PriceValidUntil offer;
     inventoryLevel := AvailableQuantity offer;
     priceSpecification :=
       {| priceType := "https://schema.org/ListPrice";
          priceComponentType := None; ups_name := None;
          ups_description := None; billingDuration := None;
          billingIncrement := None;
          ups_price := ListPrice offer |}
       :: {| priceType := "https://schema.org/SalePrice";
             priceComponentType := None; ups_name := None;
             ups_description := None; billingDuration := None;
             billingIncrement := None;
             ups_price := Price offer |}
       :: ((λ installment,
              {| priceType := "https://schema.org/SalePrice";
                 priceComponentType := Some "https://schema.org/Installment";
                 ups_name := Some (PaymentSystemName installment);
                 ups_description := Some (inst_Name installment);
                 billingDuration := Some (NumberOfInstallments installment);
                 billingIncrement := Some (inst_Value installment);
                 ups_price := TotalValuePlusInterestRate installment |})
             <$> Installments offer);
     availability := if num_lt 0%Q (AvailableQuantity offer)
                     then "https://schema.org/InStock"
                     else "https://schema.org/OutOfStock" |}.

(** The offers of a sku, best offer first
    ([sku.sellers.map(toOffer).sort(bestOfferFirst)]). *)
Definition sku_offers (sku : SkuVTEX) : list Offer :=
  Array_sort bestOfferFirst (toOffer <$> sellers sku).

(** [toProduct] calls itself on every item of the product.
    [toProduct_body] is the body of the function, with [self] standing
    for the function in its recursive call. *)
Definition toProduct_body
    (self : ProductVTEX → SkuVTEX → Z → ProductOptions → outcome Product)
    (product : ProductVTEX) (sku : SkuVTEX) (level : Z) (options : ProductOptions)
  : outcome Product :=
  let url := options_url options in
  let priceCurrency := options_priceCurrency options in
  let skuId := itemId sku in
  groupAdditionalProperty ←
    (if isLegacyProduct product
     then legacyToProductGroupAdditionalProperties product
     else Ok (toProductGroupAdditionalProperties product));
  specificationsAdditionalProperty ←
    (if isLegacySku sku
     then toAdditionalPropertiesLegacy sku
     else toAdditionalProperties sku);
  let images := default [DEFAULT_IMAGE] (nonEmptyArray (images sku)) in
  let offers := sku_offers sku in
  hasVariant ←
    (if (level <? 1)%Z
     then Array_mapM (λ sku, self product sku 1%Z options) (items product)
     else Ok []);
  let highPriceIndex := getHighPriceIndex offers in
  let lowPriceIndex := 0%Z in
  categories ← splitCategory (categories product !! 0);
  let categoriesString := join ">" categories in
  categoryAdditionalProperties ← toAdditionalPropertyCategories product;
  let additionalProperty :=
    specificationsAdditionalProperty ++ categoryAdditionalProperties in
  productUrl ← getProductURL url (linkText product) (Some (itemId sku));
  groupUrl ← getProductURL url (linkText product) (Some (itemId sku));
  mret
    {| category := categoriesString;
       productID := skuId;
       url := href productUrl;
       name := sku_name sku;
       description := product_description product;
       product_brand := brand product;
       sku := skuId;
       gtin := ean sku;
       product_releaseDate := releaseDate product;
       additionalProperty := additionalProperty;
       isVariantOf :=
         {| productGroupID := productId product;
            hasVariant := hasVariant;
            group_url := href groupUrl;
            group_name := productName product;
            group_additionalProperty := groupAdditionalProperty;
            model := productReference product |};
       image := (λ i, {| alternateName := default "" (imageText i);
                         image_url := imageUrl i |}) <$> images;
       aggregateOffer :=
         if (0 <? length offers)%nat
         then Some {| priceCurrency := priceCurrency;
                      highPrice := price <$> offer_at offers highPriceIndex;
                      lowPrice := price <$> offer_at offers lowPriceIndex;
                      offerCount := length offers;
                      offers := offers |}
         else None |}.

(** The recursion is tied with a budget for the depth of the calls:
    [OutOfFuel] is returned when the budget does not cover it. *)
Fixpoint toProduct_fuel (fuel : nat)
  : ProductVTEX → SkuVTEX → Z → ProductOptions → outcome Product :=
  match fuel with
  | O => λ _ _ _ _, OutOfFuel
  | S fuel' => toProduct_body (toProduct_fuel fuel')
  end.

(** The recursive calls pass [level = 1], on which [toProduct] does not
    recurse: a budget of two covers every call, as the section on the
    recursion of [toProduct] shows. *)
Definition toProduct : ProductVTEX → SkuVTEX → Z → ProductOptions → outcome Product :=
  toProduct_fuel 2.

(** [categories.reverse()] reverses the array of the product object in
    place, so [toBreadcrumbList] returns, next to its result, the
    product object as the call leaves it.  The array is reversed before
    the first URL is built: the product object is changed also when one
    of the URLs is rejected. *)
Definition toBreadcrumbList (product : ProductVTEX) (options : ProductOptions)
  : outcome BreadcrumbList * ProductVTEX :=
  let url := options_url options in
  let categories := reverse (categories product) in
  let product := set_categories categories product in
  (elements ←
     Array_imapM (λ index categoryPath,
                    let splitted := filter_Boolean (split "/" categoryPath) in
                    let name := last splitted in
                    let item := join "/" (slugify <$> splitted) in
                    itemUrl ← new_URL ("/" +:+ item) (origin url);
                    mret {| item_name := name;
                            item := href itemUrl;
                            position := index + 1 |})
                 categories;
   productUrl ← getCanonicalURL url (linkText product);
   mret {| itemListElement :=
             elements
             ++ [ {| item_name := Some (productName product);
                     item := href productUrl;
                     position := length categories + 1 |} ];
           numberOfItems := length categories + 1 |},
   product).

(** [`${skuId}`] for a possibly undefined sku id. *)
Definition show_id (skuId : option string) : string := default "undefined" skuId.

(** The result is paired with the product object as the call leaves
    it.  The fields of the returned object literal are evaluated in
    order: the breadcrumb first, then the product. *)
Definition toProductPage (product : ProductVTEX) (maybeSkuId : option string)
    (options : ProductOptions) : outcome ProductDetailsPage * ProductVTEX :=
  let skuId := match maybeSkuId with
               | Some id => Some id
               | None => itemId <$> (items product !! 0)
               end in
  let sku := List.find (λ item, bool_decide (Some (itemId item) = skuId))
                       (items product) in
  match sku with
  | None =>
      (Throw (Error ("Missing sku " +:+ show_id skuId +:+ " on product "
                     +:+ productName product)),
       product)
  | Some sku =>
      let '(breadcrumbList, product) := toBreadcrumbList product options in
      (breadcrumbList ← breadcrumbList;
       p ← toProduct product sku 0%Z options;
       mret {| breadcrumbList := breadcrumbList; product := p |},
       product)
  end.

Definition unselect (facet : LegacyFacet) (url : URL) (map : string)
  : outcome string :=
  let mapSegments := split "," map in
  if (length mapSegments =? 1)%nat then Ok (pathname url +:+ search url)
  else
    let index := findIndex (λ segment, String.eqb segment (Map facet)) mapSegments in
    let mapSegments := match index with
                       | Some i => splice i 1 mapSegments
                       | None => mapSegments
                       end in
    newUrl ← new_URL (replace ("/" +:+ Value facet) "" (pathname url))
                     (origin url);
    let newUrl := set_search (search url) newUrl in
    let newUrl := if (0 <? length mapSegments)%nat
                  then searchParams_set "map" (join "," mapSegments) newUrl
                  else newUrl in
    mret (pathname newUrl +:+ search newUrl).

Definition legacyFacetToFilter (name : string) (facets : list LegacyFacet)
    (url : URL) (map : string) : outcome FilterToggle :=
  let mapSegments : gset string := list_to_set (split "," map) in
  let pathSegments : gset string :=
    list_to_set (take (size mapSegments + 1) (split "/" (pathname url))) in
  values ←
    Array_mapM
      (λ facet,
         let selected := bool_decide (Map facet ∈ mapSegments)
                         && bool_decide (Value facet ∈ pathSegments) in
         href ← (if selected then unselect facet url map
                 else Ok (LinkEncoded facet));
         mret {| toggle_value := Value facet;
                 toggle_quantity := Quantity facet;
                 toggle_url := href;
                 toggle_label := Name facet;
                 selected := selected |})
      facets;
  mret {| filter_quantity := length facets;
          filter_label := name;
          filter_key := name;
          filter_values := values |}.

Definition filtersToSearchParams (selectedFacets : list SelectedFacet)
  : URLSearchParams :=
  foldl (λ searchParams f, params_append ("filter." +:+ key f) (value f) searchParams)
        [] selectedFacets.

(** [const [filter, key] = name.split(".")]: [key] is undefined when
    the name has no dot. *)
Definition filtersFromSearchParams (params : URLSearchParams) : list SelectedFacet :=
  foldl (λ selectedFacets '(name, value),
           match split "." name with
           | filter :: key :: _ =>
               if String.eqb filter "filter"
               then selectedFacets ++ [ {| key := key; value := value |} ]
               else selectedFacets
           | _ => selectedFacets
           end)
        [] params.

End Transform.

(* ===================================================================== *)
(** ** Facets of intelligent search ([toFilter]) *)
(* ===================================================================== *)

Record FacetValueRange := {
  range_from : number;
  range_to : number;
}.

Record FacetValueBoolean := {
  boolean_quantity : number;
  boolean_name : string;
  boolean_value : string;
  boolean_selected : bool;
}.

(** [Facet], imported as [FacetVTEX].  The vendor sends range values
    under the type ["PRICERANGE"] only: a facet of range values has that
    type, and a facet of any type has boolean values otherwise.  The
    [quantity] of a facet is a count. *)
Inductive FacetVTEX :=
| PriceRangeFacet (hidden : bool) (name key : string)
                  (values : list FacetValueRange)
| ToggleFacet (hidden : bool) (type name key : string) (quantity : nat)
              (values : list FacetValueBoolean).

Definition facet_hidden (facet : FacetVTEX) : bool :=
  match facet with
  | PriceRangeFacet hidden _ _ _ => hidden
  | ToggleFacet hidden _ _ _ _ _ => hidden
  end.

Definition facet_type (facet : FacetVTEX) : string :=
  match facet with
  | PriceRangeFacet _ _ _ _ => "PRICERANGE"
  | ToggleFacet _ type _ _ _ _ => type
  end.

Definition facet_name (facet : FacetVTEX) : string :=
  match facet with
  | PriceRangeFacet _ name _ _ => name
  | ToggleFacet _ _ name _ _ _ => name
  end.

Definition facet_key (facet : FacetVTEX) : string :=
  match facet with
  | PriceRangeFacet _ _ k _ => k
  | ToggleFacet _ _ _ k _ _ => k
  end.

(** The [quantity] of a facet; [toFilter] reads it from facets of
    boolean values only. *)
Definition facet_quantity (facet : FacetVTEX) : nat :=
  match facet with
  | PriceRangeFacet _ _ _ _ => 0
  | ToggleFacet _ _ _ _ quantity _ => quantity
  end.

(** [facet.values as FacetValueRange[]], as the two [reduce] calls read
    it: an entry without a [range] raises a [TypeError] when its [from]
    is read. *)
Definition range_values (facet : FacetVTEX) : outcome (list FacetValueRange) :=
  match facet with
  | PriceRangeFacet _ _ _ values => Ok values
  | ToggleFacet _ _ _ _ _ [] => Ok []
  | ToggleFacet _ _ _ _ _ (_ :: _) =>
      Throw (TypeError "Cannot read properties of undefined (reading 'from')")
  end.

(** [facet.values as FacetValueBoolean[]], read in the branch of the
    types other than ["PRICERANGE"]. *)
Definition boolean_values (facet : FacetVTEX) : list FacetValueBoolean :=
  match facet with
  | PriceRangeFacet _ _ _ _ => []
  | ToggleFacet _ _ _ _ _ values => values
  end.

(** The lower bound of a price range: the accumulator of its [reduce]
    starts at [Infinity]. *)
Inductive RangeBound :=
| Infinity
| Finite (n : number).

Record FilterRange := {
  range_label : string;
  range_key : string;
  range_min : RangeBound;
  range_max : number;
}.

Inductive Filter :=
| Toggle (filter : FilterToggle)
| Range (filter : FilterRange).

(** [acc > from] for an accumulator that may be [Infinity]. *)
Definition bound_gt (acc : RangeBound) (n : number) : bool :=
  match acc with
  | Infinity => true
  | Finite a => num_lt n a
  end.

(** The filters behind the link of a facet value: a selected value
    keeps the selected facets that differ from it in key and in value,
    another value is added to the selected facets. *)
Definition toggled_filters (facetKey : string) (v : FacetValueBoolean)
    (selectedFacets : list SelectedFacet) : list SelectedFacet :=
  let newFacet := {| key := facetKey; value := boolean_value v |} in
  if boolean_selected v
  then List.filter (λ facet, negb (String.eqb (key facet) (key newFacet))
                             && negb (String.eqb (value facet) (value newFacet)))
                   selectedFacets
  else selectedFacets ++ [newFacet].

(** [None] stands for [null]. *)
Definition toFilter (facet : FacetVTEX) (selectedFacets : list SelectedFacet)
  : outcome (option Filter) :=
  if facet_hidden facet then Ok None
  else if String.eqb (facet_type facet) "PRICERANGE" then
    values ← range_values facet;
    mret (Some (Range
      {| range_label := facet_name facet;
         range_key := facet_key facet;
         range_min :=
           foldl (λ acc curr, if bound_gt acc (range_from curr)
                              then Finite (range_from curr) else acc)
                 Infinity values;
         range_max :=
           foldl (λ acc curr, if num_lt acc (range_to curr)
                              then range_to curr else acc)
                 0%Q values |}))
  else
    Ok (Some (Toggle
      {| filter_key := facet_key facet;
         filter_label := facet_name facet;
         filter_quantity := facet_quantity facet;
         filter_values :=
           (λ v,
              let filters := toggled_filters (facet_key facet) v selectedFacets in
              {| toggle_value := boolean_value v;
                 toggle_quantity := boolean_quantity v;
                 selected := boolean_selected v;
                 toggle_url :=
                   "?" +:+ params_toString (filtersToSearchParams filters);
                 toggle_label := boolean_name v |})
             <$> boolean_values facet |})).

(* ===================================================================== *)
(** ** The category tree ([categoryTreeToNavbar]) *)
(* ===================================================================== *)

(** [new URL(input, base)] on arbitrary input is the URL parser of the
    platform, which rejects some inputs with a [TypeError]: the
    development is parametric in it. *)
Class URLParser := URL_parse : string → string → outcome URL.

#[warnings="-register-all"]
Inductive Category := mkCategory {
  category_name : string;
  category_url : string;
  category_children : list Category;
}.

#[warnings="-register-all"]
Inductive Navbar := mkNavbar {
  navbar_href : string;
  navbar_label : string;
  navbar_children : list Navbar;
}.

Section Navigation.
Context `{URLParser}.

Fixpoint nodeToNavbar (node : Category) : outcome Navbar :=
  url ← URL_parse (category_url node) "https://example.com";
  children ← Array_mapM nodeToNavbar (category_children node);
  mret {| navbar_href := pathname url +:+ search url;
          navbar_label := category_name node;
          navbar_children := children |}.

Definition categoryTreeToNavbar (tree : list Category) : outcome (list Navbar) :=
  Array_mapM nodeToNavbar tree.

End Navigation.

(* ===================================================================== *)
(** ** The cart ([hooks/useCart.ts]) *)
(* ===================================================================== *)

Module Cart.

(** An order form, as far as the hook reads it: its id, and the rest of
    the document. *)
Record OrderForm := {
  orderFormId : string;
  orderForm_document : string;
}.

(** The body of a request, before [JSON.stringify]. *)
Record UpdateItem := {
  update_quantity : number;
  update_index : number;
}.

Record AddItem := {
  add_quantity : number;
  add_seller : string;
  add_id : string;
  add_index : option number;
  add_price : option number;
}.

Inductive Body :=
| CouponBody (text : string)
| ProfileBody (ignoreProfileData : bool)
| PriceBody (price : number)
| UpdateItemsBody (orderItems : list UpdateItem)
| AddItemsBody (orderItems : list AddItem).

(** The arguments of a [fetchAPI] call; [json] tells whether the
    [content-type: application/json] header is set. *)
Record Request := {
  request_url : string;
  request_method : option string;
  request_body : option Body;
  request_json : bool;
}.

(** A settled promise. *)
Inductive settled (A : Type) :=
| Fulfilled (a : A)
| Rejected (reason : error).
Arguments Fulfilled {A} a.
Arguments Rejected {A} reason.

(** The collaborators of the hook: [fetchAPI] ([utils/fetchAPI.ts]),
    which answers a request out of the state of the server and changes
    it, and the conversion of a number to a string in a template
    literal. *)
Class Platform (Server : Type) := {
  fetchAPI : Request → Server → settled OrderForm * Server;
  number_toString : number → string;
}.

(** The module state: the two signals, the promise at the tail of the
    queue ([None] when it is fulfilled, [Some reason] when it is
    rejected), and the server. *)
Record State (Server : Type) := {
  cart : option OrderForm;
  loading : bool;
  queue : option error;
  server : Server;
}.
Arguments cart {Server}.
Arguments loading {Server}.
Arguments queue {Server}.
Arguments server {Server}.

(** An asynchronous function of the module, run to its settlement. *)
Definition Promise (Server A : Type) : Type :=
  State Server → settled A * State Server.

Section Hook.
Context {Server : Type} `{Platform Server}.

(** [const cart = signal(null)], [const loading = signal(true)],
    [let queue = Promise.resolve()]. *)
Definition initial (s : Server) : State Server :=
  {| cart := None; loading := true; queue := None; server := s |}.

Definition set_cart (form : OrderForm) (st : State Server) : State Server :=
  {| cart := Some form; loading := loading st; queue := queue st;
     server := server st |}.

Definition set_loading (b : bool) (st : State Server) : State Server :=
  {| cart := cart st; loading := b; queue := queue st; server := server st |}.

Definition set_queue (q : option error) (st : State Server) : State Server :=
  {| cart := cart st; loading := loading st; queue := q; server := server st |}.

Definition set_server (s : Server) (st : State Server) : State Server :=
  {| cart := cart st; loading := loading st; queue := queue st; server := s |}.

Definition resolve {A} (a : A) : Promise Server A := λ st, (Fulfilled a, st).

Definition and_then {A B} (p : Promise Server A) (k : A → Promise Server B)
  : Promise Server B :=
  λ st, match p st with
        | (Fulfilled a, st') => k a st'
        | (Rejected e, st') => (Rejected e, st')
        end.

(** [cart.value!.orderFormId]: reading the id of a [null] cart raises a
    [TypeError]. *)
Definition cart_orderFormId : Promise Server string :=
  λ st, match cart st with
        | Some form => (Fulfilled (orderFormId form), st)
        | None =>
            (Rejected (TypeError "Cannot read properties of null (reading 'orderFormId')"),
             st)
        end.

(** [cart.value = await fetchAPI(...)]: the cart is assigned when the
    request succeeds. *)
Definition fetch_cart (request : Request) : Promise Server unit :=
  λ st, match fetchAPI request (server st) with
        | (Fulfilled form, s) => (Fulfilled (), set_cart form (set_server s st))
        | (Rejected e, s) => (Rejected e, set_server s st)
        end.

Definition json_request (url method : string) (body : Body) : Request :=
  {| request_url := url; request_method := Some method;
     request_body := Some body; request_json := true |}.

Definition get_request (url : string) : Request :=
  {| request_url := url; request_method := None; request_body := None;
     request_json := false |}.

Definition addCouponsToCart (text : string) : Promise Server unit :=
  and_then cart_orderFormId (λ id,
    fetch_cart (json_request
      ("/api/checkout/pub/orderForm/" +:+ id +:+ "/coupons")
      "POST" (CouponBody text))).

Definition getCartInstallments (paymentSystem : number) : Promise Server unit :=
  let params := [("paymentSystem", number_toString paymentSystem)] in
  and_then cart_orderFormId (λ id,
    fetch_cart (get_request
      ("/api/checkout/pub/orderForm/" +:+ id +:+ "/installments?"
       +:+ params_toString params))).

Definition ignoreProfileData (ignore : bool) : Promise Server unit :=
  and_then cart_orderFormId (λ id,
    fetch_cart (json_request
      ("/api/checkout/pub/orderForm/" +:+ id +:+ "/profile")
      "PATCH" (ProfileBody ignore))).

Definition changePrice (itemIndex price : number) : Promise Server unit :=
  and_then cart_orderFormId (λ id,
    fetch_cart (json_request
      ("/api/checkout/pub/orderForm/" +:+ id +:+ "/items/"
       +:+ number_toString itemIndex +:+ "/price")
      "PUT" (PriceBody price))).

Definition getCart : Promise Server unit :=
  fetch_cart (get_request "/api/checkout/pub/orderForm").

Definition removeAllPersonalData : Promise Server unit :=
  and_then cart_orderFormId (λ id,
    fetch_cart (get_request ("/checkout/changeToAnonymousUser/" +:+ id))).

(** The search parameters of [updateItems] and [addItems]:
    [allowedOutdatedData] defaults to [["paymentData"]] when it is not
    given. *)
Definition outdated_params (allowedOutdatedData : option (list string))
  : URLSearchParams :=
  foldl (λ params it, params_append "allowedOutdatedData" it params)
        [] (default ["paymentData"] allowedOutdatedData).

Definition updateItems (orderItems : list UpdateItem)
    (allowedOutdatedData : option (list string)) : Promise Server unit :=
  let params := outdated_params allowedOutdatedData in
  and_then cart_orderFormId (λ id,
    fetch_cart (json_request
      ("/api/checkout/pub/orderForm/" +:+ id +:+ "/items/update?"
       +:+ params_toString params)
      "POST" (UpdateItemsBody orderItems))).

Definition removeAllItems : Promise Server unit :=
  and_then cart_orderFormId (λ id,
    fetch_cart
      {| request_url := "/api/checkout/pub/orderForm/" +:+ id +:+ "/items/removeAll";
         request_method := Some "POST"; request_body := None;
         request_json := false |}).

Definition addItems (orderItems : list AddItem)
    (allowedOutdatedData : option (list string)) : Promise Server unit :=
  let params := outdated_params allowedOutdatedData in
  and_then cart_orderFormId (λ id,
    fetch_cart (json_request
      ("/api/checkout/pub/orderForm/" +:+ id +:+ "/items?"
       +:+ params_toString params)
      "POST" (AddItemsBody orderItems))).

(** The middlewares. *)
Definition withCart (cb : Promise Server unit) : Promise Server unit :=
  λ st, match cart st with
        | None => (Rejected (Error "Missing cart"), st)
        | Some _ => cb st
        end.

(** [try { loading.value = true; return await cb() }
     finally { loading.value = false }]. *)
Definition withLoading (cb : Promise Server unit) : Promise Server unit :=
  λ st, let '(result, st') := cb (set_loading true st) in
        (result, set_loading false st').

(** [queue = queue.then(cb); return queue]: [then] runs [cb] once the
    tail of the queue is fulfilled and passes a rejection on without
    running it; the promise it returns becomes the tail. *)
Definition withPQueue (cb : Promise Server unit) : Promise Server unit :=
  λ st, match queue st with
        | Some reason => (Rejected reason, st)
        | None =>
            let '(result, st') := cb st in
            (result,
             set_queue (match result with
                        | Fulfilled _ => None
                        | Rejected reason => Some reason
                        end) st')
        end.

(** The methods of the object that [useCart] returns which go through
    the queue, with [Refresh] for the [_getCart] of the client-side
    start and of the [visibilitychange] listener. *)
Inductive Method :=
| Refresh
| RemoveAllItems
| RemoveAllPersonalData
| UpdateItems (orderItems : list UpdateItem)
              (allowedOutdatedData : option (list string))
| AddItems (orderItems : list AddItem)
           (allowedOutdatedData : option (list string))
| ChangePrice (itemIndex price : number)
| IgnoreProfileData (ignore : bool)
| GetCartInstallments (paymentSystem : number)
| AddCouponsToCart (text : string).

Definition call (method : Method) : Promise Server unit :=
  match method with
  | Refresh => withPQueue (withLoading getCart)
  | RemoveAllItems => withPQueue (withCart (withLoading removeAllItems))
  | RemoveAllPersonalData =>
      withPQueue (withCart (withLoading removeAllPersonalData))
  | UpdateItems orderItems allowed =>
      withPQueue (withCart (withLoading (updateItems orderItems allowed)))
  | AddItems orderItems allowed =>
      withPQueue (withCart (withLoading (addItems orderItems allowed)))
  | ChangePrice itemIndex price =>
      withPQueue (withCart (withLoading (changePrice itemIndex price)))
  | IgnoreProfileData ignore =>
      withPQueue (withCart (withLoading (ignoreProfileData ignore)))
  | GetCartInstallments paymentSystem =>
      withPQueue (withCart (withLoading (getCartInstallments paymentSystem)))
  | AddCouponsToCart text =>
      withPQueue (withCart (withLoading (addCouponsToCart text)))
  end.

(** The state after a series of calls, made in this order. *)
Definition after_calls (methods : list Method) (st : State Server) : State Server :=
  foldl (λ st method, (call method st).2) st methods.

End Hook.

End Cart.

(* ===================================================================== *)
(** ** Sample catalog data *)
(* ===================================================================== *)

Module Samples.

(** A plain slugifier: lower-case letters, dashes for spaces. *)
Definition slug_char (c : ascii) : ascii :=
  let n := N_of_ascii c in
  if ((65 <=? n) && (n <=? 90))%N then ascii_of_N (n + 32)
  else if Ascii.eqb c " " then "-"%char else c.

Fixpoint slug (s : string) : string :=
  match s with
  | EmptyString => EmptyString
  | String c s' => String (slug_char c) (slug s')
  end.

#[export] Instance sample_slugify : Slugify := slug.

(** A parser that rejects whatever is not a plain path. *)
#[export] Instance sample_standard : URLStandard :=
  λ input base, Invalid "Invalid URL".

Definition request : ProductOptions :=
  {| options_url := {| origin := "https://store.example";
                       href_prefix := "https://store.example";
                       pathname := "/tenis-azul/p";
                       search := "?skuId=1";
                       hash := "" |};
     options_priceCurrency := "BRL" |}.

Definition seller (id : string) (spot : option number) (sale : number)
    (quantity : number) : SellerVTEX :=
  {| sellerId := id;
     commertialOffer :=
       {| spotPrice := spot; Price := sale; ListPrice := sale;
          PriceValidUntil := "2024-01-01T00:00:00Z";
          AvailableQuantity := quantity;
          Installments := [] |} |}.

Definition item (id : string) (vs : option (list Variation))
    (ss : list SellerVTEX) : SkuVTEX :=
  {| itemId := id; sku_name := "Tenis Azul " +:+ id; ean := "789";
     variations := vs;
     sku_fields := {[ "Tamanho" := ["42"] ]};
     images := None;
     sellers := ss |}.

Definition catalog_product (org : option string) (cats : list string)
    (its : list SkuVTEX) : ProductVTEX :=
  {| product_origin := org;
     brand := "Marca";
     productId := "100";
     productReference := "REF-100";
     product_description := "Um tenis azul";
     releaseDate := "2023-01-01T00:00:00Z";
     productName := "Tenis Azul";
     linkText := "tenis-azul";
     categories := cats;
     categoriesIds := ["/1/2/"; "/1/"];
     items := its;
     allSpecifications := Some ["Material"];
     product_fields := {[ "Material" := ["Couro"] ]};
     properties := Some [ {| prop_name := "Material"; prop_values := ["Couro"] |} ] |}.

(** Two sellers: the one in stock asks 10, the one out of stock 5. *)
Definition sku_cheaper_out_of_stock : SkuVTEX :=
  item "1" (Some [VariationName "Tamanho"])
       [ seller "a" None 10%Q 3%Q; seller "b" None 5%Q 0%Q ].

(** Three sellers in stock and one out of stock. *)
Definition sku_four_sellers : SkuVTEX :=
  item "2" (Some [VariationSpec "Tamanho" ["42"]])
       [ seller "a" None 30%Q 1%Q; seller "b" None 50%Q 0%Q;
         seller "c" (Some 20%Q) 25%Q 2%Q; seller "d" None 40%Q 7%Q ].

Definition legacy_product : ProductVTEX :=
  catalog_product None ["/Calcados/Tenis/"; "/Calcados/"]
                  [sku_cheaper_out_of_stock].

Definition search_product : ProductVTEX :=
  catalog_product (Some "intelligent-search") ["/Calcados/Tenis/"; "/Calcados/"]
                  [sku_four_sellers].

(** A product without any category path. *)
Definition uncategorized_product : ProductVTEX :=
  catalog_product None [] [sku_cheaper_out_of_stock].

(** A sku whose [itemId] is the empty string. *)
Definition sku_empty_id : SkuVTEX :=
  item "" None [ seller "a" None 10%Q 3%Q ].

Definition facet (m v : string) : LegacyFacet :=
  {| Map := m; Value := v; LinkEncoded := "/calcados/" +:+ v +:+ "?map=c," +:+ m;
     Quantity := 4%Q; Name := v |}.

(** The colour [azul] on the listing of the category [azulejo]. *)
Definition blue : LegacyFacet :=
  {| Map := "specificationFilter_1"; Value := "azul";
     LinkEncoded := "/azulejo/azul?map=c,specificationFilter_1";
     Quantity := 4%Q; Name := "Azul" |}.

Definition tiles_url : URL :=
  {| origin := "https://store.example";
     href_prefix := "https://store.example";
     pathname := "/azulejo/azul";
     search := "?map=c,specificationFilter_1";
     hash := "" |}.

Definition listing_url : URL :=
  {| origin := "https://store.example";
     href_prefix := "https://store.example";
     pathname := "/calcados/azul";
     search := "?map=c,specificationFilter_1";
     hash := "" |}.

End Samples.

(* ===================================================================== *)
(** ** Sample facets, categories and carts *)
(* ===================================================================== *)

Module MoreSamples.

Definition selected_facets : list SelectedFacet :=
  [ {| key := "cor"; value := "azul" |};
    {| key := "cor"; value := "verde" |};
    {| key := "tamanho"; value := "42" |} ].

Definition facet_value (v : string) (sel : bool) : FacetValueBoolean :=
  {| boolean_quantity := 3%Q; boolean_name := v; boolean_value := v;
     boolean_selected := sel |}.

(** The facet of colours, with [azul] selected and [preto] not. *)
Definition colour_facet : FacetVTEX :=
  ToggleFacet false "TEXT" "Cor" "cor" 7
              [facet_value "azul" true; facet_value "preto" false].

Definition price_facet : FacetVTEX :=
  PriceRangeFacet false "Preco" "price"
    [ {| range_from := 50%Q; range_to := 100%Q |};
      {| range_from := 10%Q; range_to := 50%Q |};
      {| range_from := 100%Q; range_to := 400%Q |} ].

(** A parser that accepts the plain paths and rejects everything else. *)
#[export] Instance sample_parser : URLParser := λ input base,
  if startsWith "/" input then new_URL (H := Samples.sample_standard) input base
  else Throw (TypeError "Invalid URL").

Definition category_tree : list Category :=
  [ mkCategory "Calcados" "/calcados"
      [ mkCategory "Tenis" "/calcados/tenis" [];
        mkCategory "Botas" "/calcados/botas" [] ];
    mkCategory "Roupas" "/roupas" [] ].

(** A server that answers its first request and fails afterwards. *)
#[export] Instance sample_platform : Cart.Platform nat :=
  {| Cart.fetchAPI := λ request n,
       if (n <? 1)%nat
       then (Cart.Fulfilled {| Cart.orderFormId := "of-1";
                               Cart.orderForm_document := "{}" |}, S n)
       else (Cart.Rejected (Error "503"), S n);
     Cart.number_toString := λ n, "1" |}.

Definition loaded_cart : Cart.State nat :=
  {| Cart.cart := Some {| Cart.orderFormId := "of-0";
                          Cart.orderForm_document := "{}" |};
     Cart.loading := false; Cart.queue := None; Cart.server := 0 |}.

Definition rejected_cart : Cart.State nat :=
  {| Cart.cart := None; Cart.loading := false;
     Cart.queue := Some (Error "503"); Cart.server := 4 |}.

End MoreSamples.

(* ===================================================================== *)
(** ** Vocabulary of the statements *)
(* ===================================================================== *)

(** An offer that can be bought. *)
Definition available (offer : Offer) : Prop :=
  availability offer = "https://schema.org/InStock".

#[export] Instance available_dec offer : Decision (available offer).
Proof. unfold available. apply _. Defined.

(** [m] is the least (greatest) number of a list. *)
Definition minimum_of (m : number) (l : list number) : Prop :=
  m ∈ l ∧ Forall (λ x, (m <= x)%Q) l.

Definition maximum_of (m : number) (l : list number) : Prop :=
  m ∈ l ∧ Forall (λ x, (x <= m)%Q) l.

(** The URL of a product page: path [/linkText/p] on an origin. *)
Definition canonical_url (base linkText : string) : URL :=
  {| origin := base; href_prefix := base;
     pathname := "/" +:+ linkText +:+ "/p"; search := ""; hash := "" |}.

(** The same URL with the search parameter [skuId] set to [id]. *)
Definition variant_url (base linkText id : string) : URL :=
  {| origin := base; href_prefix := base;
     pathname := "/" +:+ linkText +:+ "/p";
     search := "?skuId=" +:+ urlencode id; hash := "" |}.

(** A product page with a plain URL: the request URL has an origin (as
    every http(s) URL has) and the path [/linkText/p] is plain, that is,
    [linkText] holds letters, digits and [-_.~/] only, does not start
    with [/] (the empty text is excluded with it) and forms no dot
    segment. *)
Definition plain_page (url : URL) (linkText : string) : Prop :=
  origin url ≠ "null" ∧ plain_path ("/" +:+ linkText +:+ "/p") = true.

(** The first entry of [sku.variations] is a string. *)
Definition first_variation_is_string (sku : SkuVTEX) : Prop :=
  ∃ name rest, variations sku = Some (VariationName name :: rest).

(** The variant id a product page is requested for: the given sku id
    or, without one, the [itemId] of the first item of the product. *)
Definition requested_id (product : ProductVTEX) (maybeSkuId : option string)
  : option string :=
  match maybeSkuId with
  | Some id => Some id
  | None => itemId <$> head (items product)
  end.

(** The requested variant id matches no item of the product. *)
Definition variant_absent (product : ProductVTEX) (maybeSkuId : option string)
  : Prop :=
  ∀ item, item ∈ items product →
          Some (itemId item) ≠ requested_id product maybeSkuId.

(** The key under which an entry of [sku.variations] is looked up in the
    sku by the legacy mapping. *)
Definition variation_key (v : Variation) : string :=
  match v with
  | VariationName name => name
  | VariationSpec _ _ => "[object Object]"
  end.

(** A sku whose [variations] are complete: a legacy sku has an array of
    values under each of the names it lists, and the entries of another
    sku are all [{name, values}] objects. *)
Definition complete_sku (sku : SkuVTEX) : Prop :=
  ∀ vs, variations sku = Some vs →
    (first_variation_is_string sku →
     Forall (λ v, is_Some (sku_property sku (variation_key v))) vs)
    ∧ (¬ first_variation_is_string sku →
       Forall (λ v, ∃ name values, v = VariationSpec name values) vs).

(** A product as the vendor sends it: it has a category path and a
    category id path, a legacy product has an array of values under each
    name of [allSpecifications], and its skus are complete. *)
Definition complete_product (product : ProductVTEX) : Prop :=
  categories product ≠ []
  ∧ categoriesIds product ≠ []
  ∧ (product_origin product ≠ Some "intelligent-search" →
     ∀ names, allSpecifications product = Some names →
              Forall (λ name, is_Some (product_property product name)) names)
  ∧ Forall complete_sku (items product).

(** The inputs of the URL constructor for a product page: one path per
    category path of the product (its slugified segments) and the path
    [/linkText/p] of the page. *)
Definition page_paths `{Slugify} (product : ProductVTEX) : list string :=
  ((λ categoryPath,
      "/" +:+ join "/" (slugify <$> filter_Boolean (split "/" categoryPath)))
     <$> categories product)
  ++ ["/" +:+ linkText product +:+ "/p"].

(** The URL constructor accepts the paths of the page on the origin of
    the request.  On an origin other than [null] it accepts every plain
    path. *)
Definition paths_accepted `{Slugify} `{URLStandard}
    (product : ProductVTEX) (options : ProductOptions) : Prop :=
  Forall (λ input, returns (new_URL input (origin (options_url options))))
         (page_paths product).

(** The part of a facet key in front of its first dot (the whole key
    when it has none). *)
Definition key_stem (k : string) : string := hd "" (split "." k).

(** The shape of a tree of categories or of navigation entries: its
    labels, as a tree. *)
#[warnings="-register-all"]
Inductive LabelTree :=
| Labelled (label : string) (children : list LabelTree).

Fixpoint category_shape (node : Category) : LabelTree :=
  Labelled (category_name node) (category_shape <$> category_children node).

Fixpoint navbar_shape (entry : Navbar) : LabelTree :=
  Labelled (navbar_label entry) (navbar_shape <$> navbar_children entry).

(** The URLs of a category and of its descendants, parents first. *)
Fixpoint category_urls (node : Category) : list string :=
  category_url node :: mjoin (category_urls <$> category_children node).

(* ===================================================================== *)
(** ** Running code: values, exceptions and the recursion budget *)
(* ===================================================================== *)

Lemma bind_Ok {A B} (m : outcome A) (k : A → outcome B) (b : B) :
  m ≫= k = Ok b ↔ ∃ a, m = Ok a ∧ k a = Ok b.
Proof.
  destruct m as [a|e|]; simpl; split.
  - eauto.
  - by intros (a' & [= ->] & ?).
  - done.
  - by intros (? & ? & ?).
  - done.
  - by intros (? & ? & ?).
Qed.


Lemma Array_mapM_cons {A B} (f : A → outcome B) (x : A) (l : list A) :
  Array_mapM f (x :: l) = f x ≫= λ y, Array_mapM f l ≫= λ ys, Ok (y :: ys).
Proof. reflexivity. Qed.

Lemma Array_mapM_Ok {A B} (f : A → outcome B) (l : list A) (l' : list B) :
  Array_mapM f l = Ok l' ↔ Forall2 (λ x y, f x = Ok y) l l'.
Proof.
  revert l'; induction l as [|x l IH]; intros l'.
  - split; [by intros [= <-]|by inv 1].
  - rewrite Array_mapM_cons, bind_Ok. split.
    + intros (y & Hy & Hrest). apply bind_Ok in Hrest as (ys & Hys & [= <-]).
      constructor; [done|by apply IH].
    + inv 1 as [|? y ? ys Hy Hys]. exists y; split; [done|].
      apply bind_Ok. exists ys. by rewrite IH.
Qed.

Lemma Array_mapM_ext {A B} (f g : A → outcome B) (l : list A) :
  (∀ x, f x = g x) → Array_mapM f l = Array_mapM g l.
Proof.
  intros Hfg. induction l as [|x l IH]; [done|].
  by rewrite !Array_mapM_cons, Hfg, IH.
Qed.

Lemma halts_bind {A B} (m : outcome A) (k : A → outcome B) :
  halts m → (∀ a, halts (k a)) → halts (m ≫= k).
Proof. intros Hm Hk. destruct m; [apply Hk|done|done]. Qed.

Lemma halts_fmap {A B} (f : A → B) (m : outcome A) : halts m → halts (f <$> m).
Proof. by destruct m. Qed.

Lemma halts_Array_mapM {A B} (f : A → outcome B) (l : list A) :
  (∀ x, halts (f x)) → halts (Array_mapM f l).
Proof.
  intros Hf. induction l as [|x l IH]; [done|]. rewrite Array_mapM_cons.
  apply halts_bind; [done|]. intros y. apply halts_bind; [done|]. by intros.
Qed.

Lemma no_Error_bind {A B} (m : outcome A) (k : A → outcome B) :
  no_Error m → (∀ a, no_Error (k a)) → no_Error (m ≫= k).
Proof.
  intros Hm Hk. destruct m; [apply Hk| |done].
  intros msg [= ->]. by eapply Hm.
Qed.

Lemma no_Error_fmap {A B} (f : A → B) (m : outcome A) : no_Error m → no_Error (f <$> m).
Proof.
  destruct m; simpl; intros Hm msg; [done|..|done]. intros [= ->]. by eapply Hm.
Qed.

Lemma no_Error_Array_mapM {A B} (f : A → outcome B) (l : list A) :
  (∀ x, no_Error (f x)) → no_Error (Array_mapM f l).
Proof.
  intros Hf. induction l as [|x l IH]; [done|]. rewrite Array_mapM_cons.
  apply no_Error_bind; [done|]. intros y. apply no_Error_bind; [done|]. by intros.
Qed.

(** The helpers of [toProduct] neither recurse nor raise an [Error] of
    their own: they return or raise a [TypeError]. *)
Section Helpers.
Context {A B : Type}.

Lemma halts_map_values (values : option (list string)) (f : string → B) :
  halts (map_values values f).
Proof. by destruct values. Qed.

Lemma no_Error_map_values (values : option (list string)) (f : string → B) :
  no_Error (map_values values f).
Proof. by destruct values. Qed.

Lemma halts_Array_flatMapM (f : A → outcome (list B)) (l : list A) :
  (∀ x, halts (f x)) → halts (Array_flatMapM f l).
Proof. intros Hf. by apply halts_fmap, halts_Array_mapM. Qed.

Lemma no_Error_Array_flatMapM (f : A → outcome (list B)) (l : list A) :
  (∀ x, no_Error (f x)) → no_Error (Array_flatMapM f l).
Proof. intros Hf. by apply no_Error_fmap, no_Error_Array_mapM. Qed.

End Helpers.

Lemma halts_splitCategory c : halts (splitCategory c).
Proof. by destruct c. Qed.

Lemma no_Error_splitCategory c : no_Error (splitCategory c).
Proof. by destruct c. Qed.

Lemma halts_toAdditionalPropertyCategories product :
  halts (toAdditionalPropertyCategories product).
Proof.
  unfold toAdditionalPropertyCategories.
  apply halts_bind; [apply halts_splitCategory|]; intros ?.
  apply halts_bind; [apply halts_splitCategory|]; by intros ?.
Qed.

Lemma no_Error_toAdditionalPropertyCategories product :
  no_Error (toAdditionalPropertyCategories product).
Proof.
  unfold toAdditionalPropertyCategories.
  apply no_Error_bind; [apply no_Error_splitCategory|]; intros ?.
  apply no_Error_bind; [apply no_Error_splitCategory|]; by intros ?.
Qed.

Lemma halts_legacyToProductGroupAdditionalProperties product :
  halts (legacyToProductGroupAdditionalProperties product).
Proof.
  unfold legacyToProductGroupAdditionalProperties.
  destruct (allSpecifications product); [|done].
  apply halts_Array_flatMapM; intros ?; apply halts_map_values.
Qed.

Lemma no_Error_legacyToProductGroupAdditionalProperties product :
  no_Error (legacyToProductGroupAdditionalProperties product).
Proof.
  unfold legacyToProductGroupAdditionalProperties.
  destruct (allSpecifications product); [|done].
  apply no_Error_Array_flatMapM; intros ?; apply no_Error_map_values.
Qed.

Lemma halts_toAdditionalProperties sku : halts (toAdditionalProperties sku).
Proof.
  unfold toAdditionalProperties. destruct (variations sku); [|done].
  apply halts_Array_flatMapM; intros []; apply halts_map_values.
Qed.

Lemma no_Error_toAdditionalProperties sku : no_Error (toAdditionalProperties sku).
Proof.
  unfold toAdditionalProperties. destruct (variations sku); [|done].
  apply no_Error_Array_flatMapM; intros []; apply no_Error_map_values.
Qed.

Lemma halts_toAdditionalPropertiesLegacy sku :
  halts (toAdditionalPropertiesLegacy sku).
Proof.
  unfold toAdditionalPropertiesLegacy. destruct (variations sku); [|done].
  apply halts_Array_flatMapM; intros []; apply halts_map_values.
Qed.

Lemma no_Error_toAdditionalPropertiesLegacy sku :
  no_Error (toAdditionalPropertiesLegacy sku).
Proof.
  unfold toAdditionalPropertiesLegacy. destruct (variations sku); [|done].
  apply no_Error_Array_flatMapM; intros []; apply no_Error_map_values.
Qed.

(* ===================================================================== *)
(** ** The recursion of [toProduct] *)
(* ===================================================================== *)

Section Mapping.
Context `{URLStandard}.

(** The URL constructor returns a URL or raises a [TypeError]. *)
Lemma halts_new_URL input base : halts (new_URL input base).
Proof.
  unfold new_URL. destruct (plain_path input && tuple_origin base); [done|].
  by destruct (parse_URL input base).
Qed.

Lemma no_Error_new_URL input base : no_Error (new_URL input base).
Proof.
  unfold new_URL. destruct (plain_path input && tuple_origin base); [done|].
  by destruct (parse_URL input base).
Qed.

Lemma halts_getProductURL url linkText skuId :
  halts (getProductURL url linkText skuId).
Proof.
  unfold getProductURL, getCanonicalURL.
  apply halts_bind; [apply halts_new_URL|done].
Qed.

Lemma no_Error_getProductURL url linkText skuId :
  no_Error (getProductURL url linkText skuId).
Proof.
  unfold getProductURL, getCanonicalURL.
  apply no_Error_bind; [apply no_Error_new_URL|done].
Qed.

(** The body of [toProduct] halts, and raises no [Error], as soon as the
    function it calls on the items does (it calls none at a level of one
    or more). *)
Lemma halts_toProduct_body self product sku level options :
  ((level < 1)%Z → ∀ sku', halts (self product sku' 1%Z options)) →
  halts (toProduct_body self product sku level options).
Proof.
  intros Hself. unfold toProduct_body.
  apply halts_bind.
  { destruct (isLegacyProduct product);
      [apply halts_legacyToProductGroupAdditionalProperties|done]. }
  intros ?. apply halts_bind.
  { destruct (isLegacySku sku);
      [apply halts_toAdditionalPropertiesLegacy|apply halts_toAdditionalProperties]. }
  intros ?. apply halts_bind.
  { destruct (Z.ltb_spec level 1); [by apply halts_Array_mapM, Hself|done]. }
  intros ?. apply halts_bind; [apply halts_splitCategory|].
  intros ?. apply halts_bind; [apply halts_toAdditionalPropertyCategories|].
  intros ?. apply halts_bind; [apply halts_getProductURL|].
  intros ?. apply halts_bind; [apply halts_getProductURL|].
  by intros ?.
Qed.

Lemma no_Error_toProduct_body self product sku level options :
  ((level < 1)%Z → ∀ sku', no_Error (self product sku' 1%Z options)) →
  no_Error (toProduct_body self product sku level options).
Proof.
  intros Hself. unfold toProduct_body.
  apply no_Error_bind.
  { destruct (isLegacyProduct product);
      [apply no_Error_legacyToProductGroupAdditionalProperties|done]. }
  intros ?. apply no_Error_bind.
  { destruct (isLegacySku sku);
      [apply no_Error_toAdditionalPropertiesLegacy|apply no_Error_toAdditionalProperties]. }
  intros ?. apply no_Error_bind.
  { destruct (Z.ltb_spec level 1); [by apply no_Error_Array_mapM, Hself|done]. }
  intros ?. apply no_Error_bind; [apply no_Error_splitCategory|].
  intros ?. apply no_Error_bind; [apply no_Error_toAdditionalPropertyCategories|].
  intros ?. apply no_Error_bind; [apply no_Error_getProductURL|].
  intros ?. apply no_Error_bind; [apply no_Error_getProductURL|].
  by intros ?.
Qed.

(** At a level of one or more the body does not use [self]. *)
Lemma toProduct_body_leaf self self' product sku level options :
  (1 ≤ level)%Z →
  toProduct_body self product sku level options
  = toProduct_body self' product sku level options.
Proof.
  intros Hlevel. unfold toProduct_body.
  by replace (level <? 1)%Z with false by (symmetry; apply Z.ltb_ge; lia).
Qed.

Lemma toProduct_body_ext self self' product sku level options :
  (∀ sku', self product sku' 1%Z options = self' product sku' 1%Z options) →
  toProduct_body self product sku level options
  = toProduct_body self' product sku level options.
Proof.
  intros Hself. unfold toProduct_body.
  by rewrite (Array_mapM_ext _ _ _ Hself).
Qed.

(** The variants of a returned product are what [self] returned on the
    items, and none when [level] is one or more. *)
Lemma toProduct_body_hasVariant self product sku level options p :
  toProduct_body self product sku level options = Ok p →
  if (level <? 1)%Z
  then Forall2 (λ sku' v, self product sku' 1%Z options = Ok v)
               (items product) (hasVariant (isVariantOf p))
  else hasVariant (isVariantOf p) = [].
Proof.
  unfold toProduct_body. intros Hp.
  apply bind_Ok in Hp as (gp & _ & Hp).
  apply bind_Ok in Hp as (sp & _ & Hp).
  apply bind_Ok in Hp as (vs & Hvs & Hp).
  apply bind_Ok in Hp as (cs & _ & Hp).
  apply bind_Ok in Hp as (cp & _ & Hp).
  apply bind_Ok in Hp as (pu & _ & Hp).
  apply bind_Ok in Hp as (gu & _ & [= <-]). simpl.
  destruct (level <? 1)%Z; [by apply Array_mapM_Ok|by injection Hvs as <-].
Qed.

Lemma toProduct_fuel_leaf n product sku options :
  toProduct_fuel (S n) product sku 1%Z options
  = toProduct_fuel 1 product sku 1%Z options.
Proof. simpl. by apply toProduct_body_leaf. Qed.

(** C10.  [toProduct] terminates on every input and its recursion is at
    most one call deep: a budget of two calls already gives the result of
    any larger budget, this result is a value or an exception (never an
    exhausted budget), and every variant in the [isVariantOf.hasVariant]
    list of a returned product has itself an empty [hasVariant] list. *)
Theorem toProduct_terminates_depth_one product sku level options :
  (∀ n, toProduct_fuel (2 + n) product sku level options
        = toProduct product sku level options)
  ∧ halts (toProduct product sku level options)
  ∧ (∀ p, toProduct product sku level options = Ok p →
          Forall (λ v, hasVariant (isVariantOf v) = [])
                 (hasVariant (isVariantOf p))).
Proof.
  split; [|split].
  - intros n. unfold toProduct.
    change (toProduct_body (toProduct_fuel (S n)) product sku level options
            = toProduct_body (toProduct_fuel 1) product sku level options).
    apply toProduct_body_ext. intros sku'. apply toProduct_fuel_leaf.
  - apply halts_toProduct_body. intros _ sku'.
    apply (halts_toProduct_body (toProduct_fuel 0)). lia.
  - intros p Hp. apply toProduct_body_hasVariant in Hp.
    destruct (level <? 1)%Z; [|by rewrite Hp].
    apply Forall_forall. intros v Hv.
    apply list_elem_of_lookup in Hv as [i Hi].
    destruct (Forall2_lookup_r _ _ _ _ _ Hp Hi) as (sku' & _ & Hv).
    by apply toProduct_body_hasVariant in Hv.
Qed.

(* ===================================================================== *)
(** ** [Array.prototype.sort] under a consistent comparator *)
(* ===================================================================== *)

Lemma num_le_before {A} (cmp : A → A → number) (x y : A) :
  num_le (cmp x y) 0%Q = true ↔ before cmp x y.
Proof. apply Qle_bool_iff. Qed.

Lemma StronglySorted_lookup {A} (R : relation A) (l : list A) i j a b :
  StronglySorted R l → i < j → l !! i = Some a → l !! j = Some b → R a b.
Proof.
  intros Hl. revert i j. induction Hl as [|x l Hl IH Hx]; intros i j Hij Ha Hb.
  - done.
  - destruct j as [|j]; [lia|]. destruct i as [|i]; simpl in *.
    + injection Ha as ->. rewrite Forall_forall in Hx.
      apply Hx. by eapply list_elem_of_lookup_2.
    + eapply IH; [|done..]. lia.
Qed.

Section Sort.
Context {A : Type} (cmp : A → A → number).

Lemma sort_insert_perm (x : A) (l : list A) : sort_insert cmp x l ≡ₚ x :: l.
Proof.
  induction l as [|y l IH]; simpl; [done|].
  destruct (num_le (cmp x y) 0%Q); [done|].
  by rewrite IH, Permutation_swap.
Qed.

Lemma Array_sort_perm (l : list A) : Array_sort cmp l ≡ₚ l.
Proof.
  induction l as [|x l IH]; simpl; [done|].
  by rewrite sort_insert_perm, IH.
Qed.

Lemma Array_sort_length (l : list A) : length (Array_sort cmp l) = length l.
Proof. by rewrite Array_sort_perm. Qed.

Context (Hcmp : consistent cmp).

Lemma sort_insert_sorted (x : A) (l : list A) :
  StronglySorted (before cmp) l →
  StronglySorted (before cmp) (sort_insert cmp x l).
Proof.
  destruct Hcmp as [Htotal Htrans].
  induction 1 as [|y l Hl IH Hy]; simpl.
  - repeat constructor.
  - destruct (num_le (cmp x y) 0%Q) eqn:Hxy.
    + apply num_le_before in Hxy.
      constructor; [by constructor|].
      constructor; [done|].
      eapply Forall_impl; [done|]. intros z Hz. by eapply Htrans.
    + constructor; [done|].
      rewrite sort_insert_perm. constructor; [|done].
      apply Htotal. intros Hxy'. apply num_le_before in Hxy'. congruence.
Qed.

Lemma Array_sort_sorted (l : list A) : StronglySorted (before cmp) (Array_sort cmp l).
Proof.
  induction l as [|x l IH]; simpl; [constructor|by apply sort_insert_sorted].
Qed.

End Sort.

(* ===================================================================== *)
(** ** Offers: best offer first *)
(* ===================================================================== *)

Lemma inStock_availability (offer : Offer) :
  inStock offer = true ↔ availability offer = "https://schema.org/InStock".
Proof. apply String.eqb_eq. Qed.

(** [bestOfferFirst] orders by availability first and by price second. *)
Lemma bestOfferFirst_before (a b : Offer) :
  before bestOfferFirst a b ↔
    (inStock a = true ∧ inStock b = false)
    ∨ (inStock a = inStock b ∧ (price a <= price b)%Q).
Proof.
  unfold before, bestOfferFirst.
  destruct (inStock a), (inStock b); simpl; split.
  - intros Hle. right. split; [done|lra].
  - intros [[_ [=]]|[_ Hle]]. lra.
  - auto.
  - done.
  - intros Hle. exfalso. revert Hle. apply Qlt_not_le. reflexivity.
  - by intros [[[=] _]|[[=] _]].
  - intros Hle. right. split; [done|lra].
  - intros [[[=] _]|[_ Hle]]. lra.
Qed.

Lemma bestOfferFirst_consistent : consistent bestOfferFirst.
Proof.
  split.
  - intros a b Hab. apply bestOfferFirst_before.
    rewrite bestOfferFirst_before in Hab.
    destruct (inStock a) eqn:Ha, (inStock b) eqn:Hb.
    + right. split; [done|]. destruct (Qlt_le_dec (price b) (price a)); [|tauto].
      lra.
    + tauto.
    + tauto.
    + right. split; [done|]. destruct (Qlt_le_dec (price b) (price a)); [|tauto].
      lra.
  - intros a b c. rewrite !bestOfferFirst_before.
    intros [[Ha Hb]|[Hab Hpab]] [[Hb' Hc]|[Hbc Hpbc]].
    + congruence.
    + left. split; congruence.
    + left. split; congruence.
    + right. split; [congruence|lra].
Qed.

Lemma sku_offers_sorted (sku : SkuVTEX) :
  StronglySorted (before bestOfferFirst) (sku_offers sku).
Proof. apply Array_sort_sorted, bestOfferFirst_consistent. Qed.

Lemma sku_offers_perm (sku : SkuVTEX) : sku_offers sku ≡ₚ toOffer <$> sellers sku.
Proof. apply Array_sort_perm. Qed.

(** The [offers] array of a returned aggregate offer is the sorted array
    of the sku. *)
Lemma toProduct_body_aggregateOffer self product sku level options p :
  toProduct_body self product sku level options = Ok p →
  aggregateOffer p =
    if (0 <? length (sku_offers sku))%nat
    then Some {| priceCurrency := options_priceCurrency options;
                 highPrice := price <$> offer_at (sku_offers sku)
                                          (getHighPriceIndex (sku_offers sku));
                 lowPrice := price <$> offer_at (sku_offers sku) 0%Z;
                 offerCount := length (sku_offers sku);
                 offers := sku_offers sku |}
    else None.
Proof.
  unfold toProduct_body. intros Hp.
  apply bind_Ok in Hp as (gp & _ & Hp).
  apply bind_Ok in Hp as (sp & _ & Hp).
  apply bind_Ok in Hp as (vs & _ & Hp).
  apply bind_Ok in Hp as (cs & _ & Hp).
  apply bind_Ok in Hp as (cp & _ & Hp).
  apply bind_Ok in Hp as (pu & _ & Hp).
  by apply bind_Ok in Hp as (gu & _ & [= <-]).
Qed.

(** C3.  The offers array that [toProduct] builds for a sku (its sellers
    mapped through [toOffer] and sorted with [bestOfferFirst]) holds the
    offers of the sellers, every offer whose availability is
    [https://schema.org/InStock] stands before every other offer, and
    among offers of equal availability the prices do not decrease; it is
    the [offers] array of the aggregate offer of the returned product. *)
Theorem offers_stock_then_price (sku : SkuVTEX) :
  sku_offers sku ≡ₚ toOffer <$> sellers sku
  ∧ (∀ i j a b,
       sku_offers sku !! i = Some a → sku_offers sku !! j = Some b →
       availability a = "https://schema.org/InStock" →
       availability b ≠ "https://schema.org/InStock" →
       i < j)
  ∧ (∀ i j a b,
       sku_offers sku !! i = Some a → sku_offers sku !! j = Some b →
       i ≤ j → inStock a = inStock b → (price a <= price b)%Q)
  ∧ (∀ product level options p agg,
       toProduct product sku level options = Ok p →
       aggregateOffer p = Some agg →
       offers agg = sku_offers sku).
Proof.
  pose proof (sku_offers_sorted sku) as Hsorted.
  split; [apply sku_offers_perm|]. split; [|split].
  - intros i j a b Ha Hb Hina Hinb.
    apply inStock_availability in Hina.
    assert (inStock b = false) as Hinb'.
    { apply not_true_is_false. by rewrite inStock_availability. }
    destruct (decide (i < j)) as [|Hij]; [done|]. exfalso.
    destruct (decide (i = j)) as [->|Hne]; [congruence|].
    assert (j < i) as Hji by lia.
    pose proof (StronglySorted_lookup _ _ _ _ _ _ Hsorted Hji Hb Ha) as Hba.
    apply bestOfferFirst_before in Hba as [[? ?]|[? ?]]; congruence.
  - intros i j a b Ha Hb Hij Heq.
    destruct (decide (i = j)) as [->|Hne].
    + assert (a = b) as -> by congruence. apply Qle_refl.
    + assert (i < j) as Hlt by lia.
      pose proof (StronglySorted_lookup _ _ _ _ _ _ Hsorted Hlt Ha Hb) as Hab.
      apply bestOfferFirst_before in Hab as [[? ?]|[? ?]]; [congruence|done].
  - intros product level options p agg Hp Hagg.
    apply toProduct_body_aggregateOffer in Hp. rewrite Hp in Hagg.
    destruct (0 <? length (sku_offers sku))%nat; [|done].
    by injection Hagg as <-.
Qed.

(* ===================================================================== *)
(** ** The price range of the aggregate offer *)
(* ===================================================================== *)

Lemma available_inStock (offer : Offer) : available offer ↔ inStock offer = true.
Proof. symmetry. apply inStock_availability. Qed.

Lemma toOffer_available (s : SellerVTEX) :
  available (toOffer s) ↔ (0 < AvailableQuantity (commertialOffer s))%Q.
Proof.
  unfold available, toOffer, num_lt; simpl.
  destruct (Qle_bool _ _) eqn:Hle; simpl; split; try done.
  - intros Hlt. apply Qle_bool_iff in Hle. lra.
  - intros _. apply Qnot_le_lt. intros Hle'. apply Qle_bool_iff in Hle'. congruence.
Qed.

(** [getHighPriceIndex] stops on the last offer in stock, or on the first
    offer when it meets none. *)
Lemma highPriceLoop_spec (offers : list Offer) (it : nat) :
  it < length offers →
  highPriceLoop offers it ≤ it
  ∧ (∀ k o, highPriceLoop offers it < k ≤ it → offers !! k = Some o →
            inStock o = false)
  ∧ (highPriceLoop offers it = 0
     ∨ ∃ o, offers !! highPriceLoop offers it = Some o ∧ inStock o = true).
Proof.
  induction it as [|it IH]; intros Hit.
  - simpl. split; [lia|]. split; [intros; lia|by left].
  - cbn [highPriceLoop].
    destruct (lookup_lt_is_Some_2 offers (S it) Hit) as [o Ho]. rewrite Ho.
    destruct (inStock o) eqn:Hin; simpl.
    + split; [lia|]. split; [intros; lia|]. right. by exists o.
    + destruct IH as (Hle & Hout & Hstop); [lia|].
      split; [lia|]. split; [|done].
      intros k o' Hk Ho'. destruct (decide (k = S it)) as [->|]; [congruence|].
      apply (Hout k); [lia|done].
Qed.

(** In a sorted array with an offer in stock, the first offer is in
    stock. *)
Lemma sorted_first_inStock (offers : list Offer) first j o :
  StronglySorted (before bestOfferFirst) offers →
  offers !! 0 = Some first → offers !! j = Some o → inStock o = true →
  inStock first = true.
Proof.
  intros Hsorted Hfirst Ho Hin. destruct j as [|j]; [congruence|].
  assert (0 < S j) as Hlt by lia.
  pose proof (StronglySorted_lookup _ _ _ _ _ _ Hsorted Hlt Hfirst Ho) as Hb.
  apply bestOfferFirst_before in Hb as [[? ?]|[? ?]]; congruence.
Qed.

Lemma sorted_price_le (offers : list Offer) i j a b :
  StronglySorted (before bestOfferFirst) offers →
  i ≤ j → offers !! i = Some a → offers !! j = Some b →
  inStock a = inStock b → (price a <= price b)%Q.
Proof.
  intros Hsorted Hij Ha Hb Heq. destruct (decide (i = j)) as [->|].
  - assert (a = b) as -> by congruence. apply Qle_refl.
  - assert (i < j) as Hlt by lia.
    pose proof (StronglySorted_lookup _ _ _ _ _ _ Hsorted Hlt Ha Hb) as Hab.
    apply bestOfferFirst_before in Hab as [[? ?]|[? ?]]; [congruence|done].
Qed.

(** The lowest and the highest available price of a sorted array. *)
Lemma sorted_price_range (offers : list Offer) :
  StronglySorted (before bestOfferFirst) offers →
  Exists available offers →
  ∃ low high,
    price <$> offer_at offers 0%Z = Some low
    ∧ price <$> offer_at offers (getHighPriceIndex offers) = Some high
    ∧ minimum_of low (price <$> filter available offers)
    ∧ maximum_of high (price <$> filter available offers).
Proof.
  intros Hsorted Hex. apply Exists_exists in Hex as (o & Ho & Hin).
  apply available_inStock in Hin.
  apply list_elem_of_lookup in Ho as [j Hj].
  destruct offers as [|first rest] eqn:Hoffers; [done|]. rewrite <-Hoffers in *.
  assert (offers !! 0 = Some first) as Hfirst by by rewrite Hoffers.
  pose proof (sorted_first_inStock _ _ _ _ Hsorted Hfirst Hj Hin) as Hinfirst.
  assert (length offers - 1 < length offers) as Hlast by (rewrite Hoffers; simpl; lia).
  destruct (highPriceLoop_spec offers _ Hlast) as (Hle & Hout & Hstop).
  assert (getHighPriceIndex offers
          = Z.of_nat (highPriceLoop offers (length offers - 1))) as Hindex.
  { unfold getHighPriceIndex. by rewrite Hoffers. }
  set (h := highPriceLoop offers (length offers - 1)) in *.
  assert (∃ top, offers !! h = Some top ∧ inStock top = true) as (top & Htop & Hintop).
  { destruct Hstop as [->|?]; [by exists first|done]. }
  assert (∀ k o', offers !! k = Some o' → inStock o' = true → k ≤ h) as Hbelow.
  { intros k o' Hk Hin'. destruct (decide (k ≤ h)) as [|Hgt]; [done|].
    pose proof (lookup_lt_Some _ _ _ Hk).
    rewrite (Hout k o') in Hin'; [done|lia|done]. }
  exists (price first), (price top).
  split. { change (offer_at offers 0) with (offers !! 0). by rewrite Hfirst. }
  split. { rewrite Hindex. unfold offer_at.
           replace (Z.of_nat h <? 0)%Z with false by lia.
           by rewrite Nat2Z.id, Htop. }
  split; (split;
    [apply list_elem_of_fmap_2, list_elem_of_filter; split;
       [by apply available_inStock|by eapply list_elem_of_lookup_2]|]).
  - apply Forall_fmap, Forall_forall. intros o' Ho'.
    apply list_elem_of_filter in Ho' as [Hin' Ho'].
    apply available_inStock in Hin'.
    apply list_elem_of_lookup in Ho' as [k Hk]. simpl.
    apply (sorted_price_le offers 0 k); [done|lia|done|done|congruence].
  - apply Forall_fmap, Forall_forall. intros o' Ho'.
    apply list_elem_of_filter in Ho' as [Hin' Ho'].
    apply available_inStock in Hin'.
    apply list_elem_of_lookup in Ho' as [k Hk]. simpl.
    apply (sorted_price_le offers k h); [done|by eapply Hbelow|done|done|congruence].
Qed.

Lemma sorted_lowest_price (offers : list Offer) :
  StronglySorted (before bestOfferFirst) offers →
  Forall (λ o, ¬ available o) offers →
  offers ≠ [] →
  ∃ low, price <$> offer_at offers 0%Z = Some low
         ∧ minimum_of low (price <$> offers).
Proof.
  intros Hsorted Hnone Hne. destruct offers as [|first rest] eqn:Hoffers; [done|].
  rewrite <-Hoffers in *.
  assert (offers !! 0 = Some first) as Hfirst by by rewrite Hoffers.
  assert (∀ o, o ∈ offers → inStock o = false) as Hout.
  { intros o Ho. rewrite Forall_forall in Hnone.
    apply not_true_is_false. rewrite <-available_inStock. by apply Hnone. }
  exists (price first). split.
  { change (offer_at offers 0) with (offers !! 0). by rewrite Hfirst. }
  split.
  - apply list_elem_of_fmap_2. by eapply list_elem_of_lookup_2.
  - apply Forall_fmap, Forall_forall. intros o Ho. simpl.
    pose proof (Hout _ Ho) as Hino.
    apply list_elem_of_lookup in Ho as [k Hk].
    apply (sorted_price_le offers 0 k); [done|lia|done|done|].
    rewrite Hino. apply Hout. by eapply list_elem_of_lookup_2.
Qed.

Lemma sku_offers_available (sku : SkuVTEX) :
  Exists available (sku_offers sku)
  ↔ Exists (λ s, (0 < AvailableQuantity (commertialOffer s))%Q) (sellers sku).
Proof.
  rewrite !Exists_exists. split.
  - intros (o & Ho & Hin). rewrite sku_offers_perm in Ho.
    apply list_elem_of_fmap in Ho as (s & -> & Hs).
    exists s. split; [done|by apply toOffer_available].
  - intros (s & Hs & Hq). exists (toOffer s). split.
    + rewrite sku_offers_perm. by apply list_elem_of_fmap_2.
    + by apply toOffer_available.
Qed.

(** C4 (as amended).  For a sku with at least one seller, the product
    that [toProduct] returns carries an aggregate offer over the offers of
    all the sellers.  When a seller is in stock, [lowPrice] is the minimum
    and [highPrice] the maximum of the prices of the offers in stock;
    when none is, [lowPrice] is the minimum of the prices of all the
    offers. *)
Theorem aggregateOffer_price_range product sku level options p :
  toProduct product sku level options = Ok p →
  sellers sku ≠ [] →
  ∃ agg,
    aggregateOffer p = Some agg
    ∧ offers agg ≡ₚ toOffer <$> sellers sku
    ∧ (Exists (λ s, (0 < AvailableQuantity (commertialOffer s))%Q) (sellers sku) →
       ∃ low high,
         lowPrice agg = Some low ∧ highPrice agg = Some high
         ∧ minimum_of low (price <$> filter available (offers agg))
         ∧ maximum_of high (price <$> filter available (offers agg)))
    ∧ (Forall (λ s, ¬ (0 < AvailableQuantity (commertialOffer s))%Q) (sellers sku) →
       ∃ low, lowPrice agg = Some low ∧ minimum_of low (price <$> offers agg)).
Proof.
  intros Hp Hsellers. apply toProduct_body_aggregateOffer in Hp.
  assert (sku_offers sku ≠ []) as Hne.
  { intros Hnil. apply Hsellers, (fmap_nil_inv toOffer).
    apply Permutation_nil_r. by rewrite <-sku_offers_perm, Hnil. }
  assert ((0 <? length (sku_offers sku))%nat = true) as Hlen.
  { apply Nat.ltb_lt. destruct (sku_offers sku); [done|simpl; lia]. }
  rewrite Hlen in Hp. eexists. split; [done|]. simpl.
  split; [apply sku_offers_perm|]. split.
  - intros Hex. apply sku_offers_available in Hex.
    destruct (sorted_price_range _ (sku_offers_sorted sku) Hex)
      as (low & high & Hlow & Hhigh & Hmin & Hmax).
    by exists low, high.
  - intros Hnone.
    destruct (sorted_lowest_price _ (sku_offers_sorted sku)) as (low & Hlow & Hmin);
      [|done|by exists low].
    apply Forall_forall. intros o Ho Hin.
    assert (Exists available (sku_offers sku)) as Hex.
    { apply Exists_exists. by exists o. }
    apply sku_offers_available, Exists_exists in Hex as (s & Hs & Hq).
    rewrite Forall_forall in Hnone. by apply (Hnone s).
Qed.

(** C4 (as stated) fails.  A sku sold at 10 by a seller in stock and at 5
    by a seller out of stock gets [lowPrice = 10], above the minimum of
    its offers. *)
Lemma price_range_skips_out_of_stock :
  ¬ (∀ (parser : URLStandard) product sku level options p,
       sellers sku ≠ [] →
       toProduct (H0 := parser) product sku level options = Ok p →
       ∃ agg low high,
         aggregateOffer p = Some agg
         ∧ lowPrice agg = Some low ∧ highPrice agg = Some high
         ∧ minimum_of low (price <$> offers agg)
         ∧ maximum_of high (price <$> offers agg)).
Proof.
  intros Hclaim.
  assert (∃ p agg,
            toProduct (H0 := Samples.sample_standard)
                      Samples.legacy_product Samples.sku_cheaper_out_of_stock 0%Z
                      Samples.request = Ok p
            ∧ aggregateOffer p = Some agg
            ∧ lowPrice agg = Some 10%Q
            ∧ 5%Q ∈ price <$> offers agg) as (p & agg & Hp & Hagg & Hlow & Hin).
  { eexists _, _. split; [vm_compute; reflexivity|].
    split; [reflexivity|]. split; [reflexivity|].
    vm_compute. apply list_elem_of_further, list_elem_of_here. }
  assert (sellers Samples.sku_cheaper_out_of_stock ≠ []) as Hsellers by done.
  destruct (Hclaim _ _ _ _ _ _ Hsellers Hp)
    as (agg' & low & high & Hagg' & Hlow' & _ & [_ Hmin] & _).
  assert (agg' = agg) as -> by congruence.
  assert (low = 10%Q) as -> by congruence.
  rewrite Forall_forall in Hmin. specialize (Hmin _ Hin).
  revert Hmin. apply Qlt_not_le. reflexivity.
Qed.

(* ===================================================================== *)
(** ** Field mappings *)
(* ===================================================================== *)

(** C7 (as amended).  [toOffer] maps the seller's spot price to [price]
    when the commercial offer has one and [commertialOffer.Price]
    otherwise; [commertialOffer.Price] is always the price of the
    [SalePrice] entry of [priceSpecification]. *)
Theorem toOffer_price (s : SellerVTEX) :
  (∀ spot, spotPrice (commertialOffer s) = Some spot → price (toOffer s) = spot)
  ∧ (spotPrice (commertialOffer s) = None →
     price (toOffer s) = Price (commertialOffer s))
  ∧ (∃ sale, priceSpecification (toOffer s) !! 1 = Some sale
             ∧ priceType sale = "https://schema.org/SalePrice"
             ∧ ups_price sale = Price (commertialOffer s)).
Proof.
  unfold toOffer; simpl. split; [|split].
  - by intros spot ->.
  - by intros ->.
  - by eexists.
Qed.

(** C7 (as stated) fails.  A seller with [Price = 25] and
    [spotPrice = 20] is offered at 20. *)
Lemma toOffer_price_prefers_spotPrice :
  ¬ (∀ s : SellerVTEX, (price (toOffer s) == Price (commertialOffer s))%Q).
Proof.
  intros Hclaim.
  specialize (Hclaim (Samples.seller "c" (Some 20%Q) 25%Q 2%Q)).
  revert Hclaim. apply Qlt_not_eq. reflexivity.
Qed.

(** The fields of a returned product, read off the body of [toProduct]. *)
Lemma toProduct_body_Ok self product sku level options p :
  toProduct_body self product sku level options = Ok p →
  ∃ group specifications categoryProperties productUrl,
    (if isLegacyProduct product
     then legacyToProductGroupAdditionalProperties product
     else Ok (toProductGroupAdditionalProperties product)) = Ok group
    ∧ (if isLegacySku sku
       then toAdditionalPropertiesLegacy sku
       else toAdditionalProperties sku) = Ok specifications
    ∧ toAdditionalPropertyCategories product = Ok categoryProperties
    ∧ group_additionalProperty (isVariantOf p) = group
    ∧ additionalProperty p = specifications ++ categoryProperties
    ∧ getProductURL (options_url options) (linkText product)
                    (Some (itemId sku)) = Ok productUrl
    ∧ url p = href productUrl
    ∧ group_url (isVariantOf p) = url p.
Proof.
  unfold toProduct_body. intros Hp.
  apply bind_Ok in Hp as (gp & Hgp & Hp).
  apply bind_Ok in Hp as (sp & Hsp & Hp).
  apply bind_Ok in Hp as (vs & _ & Hp).
  apply bind_Ok in Hp as (cs & _ & Hp).
  apply bind_Ok in Hp as (cp & Hcp & Hp).
  apply bind_Ok in Hp as (pu & Hpu & Hp).
  apply bind_Ok in Hp as (gu & Hgu & [= <-]).
  assert (gu = pu) as -> by congruence.
  by exists gp, sp, cp, pu.
Qed.

Lemma isLegacyProduct_origin (product : ProductVTEX) :
  isLegacyProduct product = true
  ↔ product_origin product ≠ Some "intelligent-search".
Proof.
  unfold isLegacyProduct. rewrite negb_true_iff, bool_decide_eq_false. done.
Qed.

Lemma isLegacySku_variations (sku : SkuVTEX) :
  isLegacySku sku = true ↔ first_variation_is_string sku.
Proof.
  unfold isLegacySku, first_variation_is_string. split.
  - destruct (variations sku) as [[|[name|? ?] rest]|]; try done. eauto.
  - by intros (name & rest & ->).
Qed.

(** C6.  [toProduct] chooses its mappings by two type guards.  The
    product-group properties of the returned product are those of the
    legacy mapping exactly when [product.origin] differs from
    ["intelligent-search"] (a missing [origin] differs), and those of the
    modern mapping otherwise; the specification properties that open
    [additionalProperty] are those of the legacy sku mapping exactly when
    the first entry of [sku.variations] is a string, and those of the
    modern one otherwise. *)
Theorem toProduct_selects_mapping product sku level options p :
  toProduct product sku level options = Ok p →
  (isLegacyProduct product = true
   ↔ product_origin product ≠ Some "intelligent-search")
  ∧ (isLegacySku sku = true ↔ first_variation_is_string sku)
  ∧ (product_origin product ≠ Some "intelligent-search" →
     legacyToProductGroupAdditionalProperties product
     = Ok (group_additionalProperty (isVariantOf p)))
  ∧ (product_origin product = Some "intelligent-search" →
     group_additionalProperty (isVariantOf p)
     = toProductGroupAdditionalProperties product)
  ∧ (∃ specifications categoryProperties,
       additionalProperty p = specifications ++ categoryProperties
       ∧ toAdditionalPropertyCategories product = Ok categoryProperties
       ∧ (first_variation_is_string sku →
          toAdditionalPropertiesLegacy sku = Ok specifications)
       ∧ (¬ first_variation_is_string sku →
          toAdditionalProperties sku = Ok specifications)).
Proof.
  intros Hp.
  apply toProduct_body_Ok in Hp
    as (gp & sp & cp & pu & Hgp & Hsp & Hcp & <- & Hadd & _).
  split; [apply isLegacyProduct_origin|].
  split; [apply isLegacySku_variations|].
  split; [|split].
  - intros Horigin. apply isLegacyProduct_origin in Horigin.
    by rewrite Horigin in Hgp.
  - intros Horigin.
    destruct (isLegacyProduct product) eqn:Hlegacy.
    + apply isLegacyProduct_origin in Hlegacy. done.
    + by injection Hgp.
  - exists sp, cp. split; [done|]. split; [done|]. split.
    + intros Hfirst. apply isLegacySku_variations in Hfirst.
      by rewrite Hfirst in Hsp.
    + intros Hfirst. destruct (isLegacySku sku) eqn:Hlegacy; [|done].
      by apply isLegacySku_variations in Hlegacy.
Qed.

(* ===================================================================== *)
(** ** Product URLs *)
(* ===================================================================== *)

(** On a plain path the URL constructor returns the path on the base. *)
Lemma new_URL_plain (input base : string) :
  plain_path input = true → base ≠ "null" →
  new_URL input base
  = Ok {| origin := base; href_prefix := base;
          pathname := if startsWith "/" input then input else "/" +:+ input;
          search := ""; hash := "" |}.
Proof.
  intros Hplain Hbase%String.eqb_neq. unfold new_URL, tuple_origin.
  by rewrite Hplain, Hbase.
Qed.

Lemma getCanonicalURL_canonical (url : URL) (linkText : string) :
  plain_page url linkText →
  getCanonicalURL url linkText = Ok (canonical_url (origin url) linkText).
Proof.
  intros [Horigin Hplain]. unfold getCanonicalURL. by rewrite new_URL_plain.
Qed.

Lemma truthy_nonempty (s : string) : truthy s = true ↔ s ≠ "".
Proof.
  unfold truthy. rewrite negb_true_iff. split.
  - intros Heq ->. by rewrite String.eqb_refl in Heq.
  - intros Hne. by apply String.eqb_neq.
Qed.

Lemma getProductURL_variant (url : URL) (linkText id : string) :
  plain_page url linkText →
  id ≠ "" →
  getProductURL url linkText (Some id)
  = Ok (variant_url (origin url) linkText id).
Proof.
  intros Hplain Hid. apply truthy_nonempty in Hid.
  unfold getProductURL. rewrite getCanonicalURL_canonical by done.
  change (Ok (canonical_url (origin url) linkText) ≫= ?k)
    with (k (canonical_url (origin url) linkText)).
  cbv beta. by rewrite Hid.
Qed.

Lemma getProductURL_empty (url : URL) (linkText : string) :
  plain_page url linkText →
  getProductURL url linkText (Some "")
  = Ok (canonical_url (origin url) linkText).
Proof.
  intros Hplain. unfold getProductURL.
  by rewrite getCanonicalURL_canonical by done.
Qed.

Lemma split_without_separator (sep : ascii) (s : string) :
  includes sep s = false → split sep s = [s].
Proof.
  induction s as [|c s IH]; simpl; [done|].
  intros [Hc Hs]%orb_false_iff. by rewrite Hc, IH.
Qed.

(** Percent-encoding is undone by percent-decoding, and an encoded
    string has no [&] or [=] left. *)
Lemma urldecode_urlencode_byte (c : ascii) (rest : string) :
  urldecode (urlencode_byte c +:+ rest) = String c (urldecode rest).
Proof. destruct c as [[] [] [] [] [] [] [] []]; reflexivity. Qed.

Lemma urldecode_urlencode (s : string) : urldecode (urlencode s) = s.
Proof.
  induction s as [|c s IH]; [done|].
  cbn [urlencode]. by rewrite urldecode_urlencode_byte, IH.
Qed.

Lemma includes_app (c : ascii) (s t : string) :
  includes c (s +:+ t) = includes c s || includes c t.
Proof. induction s as [|a s IH]; simpl; [done|]. by rewrite IH, orb_assoc. Qed.

Lemma urlencode_byte_reserved (c : ascii) :
  includes "&" (urlencode_byte c) = false.
Proof. destruct c as [[] [] [] [] [] [] [] []]; reflexivity. Qed.

Lemma urlencode_reserved (s : string) : includes "&" (urlencode s) = false.
Proof.
  induction s as [|c s IH]; [done|].
  cbn [urlencode]. by rewrite includes_app, urlencode_byte_reserved, IH.
Qed.

(** The search parameters of the URL of a variant: [skuId] alone. *)
Lemma variant_url_searchParams (base linkText id : string) :
  searchParams (variant_url base linkText id) = [("skuId", id)].
Proof.
  unfold searchParams, variant_url, params_parse; simpl search.
  change ("?skuId=" +:+ urlencode id) with (String "?" ("skuId=" +:+ urlencode id)).
  cbv iota beta.
  rewrite split_without_separator by (simpl; apply urlencode_reserved).
  simpl. change ("" +:+ urlencode id) with (urlencode id).
  by rewrite urldecode_urlencode.
Qed.

Section Breadcrumb.
Context `{Slugify}.

Lemma toBreadcrumbList_last product options breadcrumb :
  (toBreadcrumbList product options).1 = Ok breadcrumb →
  ∃ final productUrl,
    last (itemListElement breadcrumb) = Some final
    ∧ getCanonicalURL (options_url options) (linkText product) = Ok productUrl
    ∧ item final = href productUrl.
Proof.
  unfold toBreadcrumbList; simpl. intros Hb.
  apply bind_Ok in Hb as (elements & _ & Hb).
  apply bind_Ok in Hb as (productUrl & Hurl & [= <-]). simpl.
  rewrite last_snoc. by eexists _, _.
Qed.

(** C8 (as amended).  On a request URL with an origin, for a product
    whose [linkText] [l] is plain (so that the URL parser keeps [/l/p]
    as the path) and a sku whose
    [itemId] [i] is not the empty string, [toProduct] sets [url] and
    [isVariantOf.url] to the URL with path [/l/p] on the origin of the
    request and with the search parameter [skuId] set to [i]; for a sku
    whose [itemId] is the empty string it sets both to the canonical URL,
    without a [skuId] parameter.  The final list item of a returned
    breadcrumb is the canonical URL, [/l/p] on the same origin without
    [skuId]. *)
Theorem toProduct_urls product sku level options p :
  plain_page (options_url options) (linkText product) →
  toProduct product sku level options = Ok p →
  let base := origin (options_url options) in
  (itemId sku ≠ "" →
   url p = href (variant_url base (linkText product) (itemId sku))
   ∧ group_url (isVariantOf p)
     = href (variant_url base (linkText product) (itemId sku)))
  ∧ (itemId sku = "" →
     url p = href (canonical_url base (linkText product))
     ∧ group_url (isVariantOf p) = href (canonical_url base (linkText product)))
  ∧ (∀ breadcrumb,
       (toBreadcrumbList product options).1 = Ok breadcrumb →
       ∃ final,
         last (itemListElement breadcrumb) = Some final
         ∧ item final = href (canonical_url base (linkText product)))
  ∧ searchParams (variant_url base (linkText product) (itemId sku))
    = [("skuId", itemId sku)]
  ∧ searchParams (canonical_url base (linkText product)) = [].
Proof.
  intros Hplain Hp base.
  apply toProduct_body_Ok in Hp
    as (gp & sp & cp & pu & _ & _ & _ & _ & _ & Hpu & Hurl & Hgroup).
  rewrite Hgroup, Hurl. clear Hgroup Hurl. split; [|split; [|split; [|split]]].
  - intros Hid. rewrite getProductURL_variant in Hpu by done.
    by injection Hpu as <-.
  - intros Hid. rewrite Hid, getProductURL_empty in Hpu by done.
    by injection Hpu as <-.
  - intros breadcrumb Hb.
    apply toBreadcrumbList_last in Hb as (final & cu & Hlast & Hcu & Hitem).
    rewrite getCanonicalURL_canonical in Hcu by done.
    injection Hcu as <-. by exists final.
  - apply variant_url_searchParams.
  - reflexivity.
Qed.

End Breadcrumb.

(** C8 (as stated) fails.  For a sku whose [itemId] is the empty string
    the guard of [getProductURL] adds no [skuId] parameter: the product
    URL is the canonical one. *)
Lemma product_url_without_skuId :
  ¬ (∀ (parser : URLStandard) product sku level options p,
       plain_page (options_url options) (linkText product) →
       toProduct (H0 := parser) product sku level options = Ok p →
       url p = href (variant_url (origin (options_url options))
                                 (linkText product) (itemId sku))
       ∧ group_url (isVariantOf p)
         = href (variant_url (origin (options_url options))
                             (linkText product) (itemId sku))).
Proof.
  intros Hclaim.
  assert (∃ p, toProduct (H0 := Samples.sample_standard)
                         Samples.legacy_product Samples.sku_empty_id 0%Z
                         Samples.request = Ok p
               ∧ url p = "https://store.example/tenis-azul/p") as (p & Hp & Hurl).
  { eexists. split; [vm_compute; reflexivity|reflexivity]. }
  assert (plain_page (options_url Samples.request)
                     (linkText Samples.legacy_product)) as Hplain
    by done.
  destruct (Hclaim _ _ _ _ _ _ Hplain Hp) as [Hclaimed _].
  rewrite Hurl in Hclaimed. vm_compute in Hclaimed. discriminate.
Qed.

(* ===================================================================== *)
(** ** Selected facets and search parameters *)
(* ===================================================================== *)

Lemma split_filter_key (k : string) :
  includes "." k = false → split "." ("filter." +:+ k) = ["filter"; k].
Proof. intros Hk. simpl. by rewrite split_without_separator. Qed.

Lemma filtersToSearchParams_fmap (selectedFacets : list SelectedFacet) :
  filtersToSearchParams selectedFacets
  = (λ f, ("filter." +:+ key f, value f)) <$> selectedFacets.
Proof.
  unfold filtersToSearchParams.
  change ((λ f, ("filter." +:+ key f, value f)) <$> selectedFacets)
    with ([] ++ ((λ f, ("filter." +:+ key f, value f)) <$> selectedFacets)).
  generalize (@nil (string * string)) as searchParams.
  induction selectedFacets as [|f fs IH]; intros searchParams; simpl.
  - by rewrite app_nil_r.
  - rewrite IH. unfold params_append. by rewrite <-app_assoc.
Qed.

(** C9.  The selected facets survive the trip through the search
    parameters: when no key contains the character [.],
    [filtersFromSearchParams (filtersToSearchParams fs)] is [fs], the
    same pairs in the same order. *)
Theorem filters_roundtrip (fs : list SelectedFacet) :
  Forall (λ f, includes "." (key f) = false) fs →
  filtersFromSearchParams (filtersToSearchParams fs) = fs.
Proof.
  intros Hfs. rewrite filtersToSearchParams_fmap. unfold filtersFromSearchParams.
  match goal with
  | |- foldl ?step [] ?params = _ =>
      enough (∀ selectedFacets, foldl step selectedFacets params = selectedFacets ++ fs)
        as Hgen by apply (Hgen [])
  end.
  induction Hfs as [|f fs Hf Hfs IH]; intros selectedFacets.
  - by rewrite app_nil_r.
  - rewrite fmap_cons. cbn [foldl].
    rewrite (split_filter_key _ Hf). cbn [String.eqb Ascii.eqb Bool.eqb].
    rewrite IH, <-app_assoc. by destruct f.
Qed.

(* ===================================================================== *)
(** ** Legacy facets *)
(* ===================================================================== *)

Lemma findIndex_first {A} (p : A → bool) (l : list A) :
  (∃ x, x ∈ l ∧ p x = true) →
  ∃ front x back,
    l = front ++ x :: back ∧ p x = true ∧ Forall (λ y, p y = false) front
    ∧ findIndex p l = Some (length front).
Proof.
  induction l as [|y l IH]; intros (x & Hx & Hpx).
  - by apply elem_of_nil in Hx.
  - simpl. destruct (p y) eqn:Hpy.
    + by exists [], y, l.
    + destruct IH as (front & x' & back & -> & Hpx' & Hfront & ->).
      { apply elem_of_cons in Hx as [->|Hx]; [congruence|eauto]. }
      exists (y :: front), x', back.
      split; [done|]. split; [done|]. split; [by constructor|done].
Qed.

Lemma splice_one {A} (front back : list A) (x : A) :
  splice (length front) 1 (front ++ x :: back) = front ++ back.
Proof.
  unfold splice. rewrite take_app_length.
  replace (length front + 1) with (length (front ++ [x])) by (rewrite length_app; simpl; lia).
  by rewrite (assoc_L (++) front [x] back : front ++ x :: back = (front ++ [x]) ++ back),
     drop_app_length.
Qed.

Lemma params_parse_set_search (s : string) (u : URL) :
  params_parse (search (set_search s u)) = params_parse s.
Proof.
  unfold set_search; simpl. destruct s as [|c s]; [done|].
  cbn [String.eqb startsWith]. destruct (Ascii.eqb_spec "?" c) as [<-|Hc]; [done|].
  cbn [andb]. unfold params_parse.
  destruct c as [[] [] [] [] [] [] [] []]; try done.
Qed.

Lemma append_nonempty (s t : string) (c : ascii) : s +:+ String c t ≠ "".
Proof. by destruct s. Qed.

Lemma params_toString_nonempty (ps : URLSearchParams) :
  ps ≠ [] → String.eqb (params_toString ps) "" = false.
Proof.
  intros Hps. apply String.eqb_neq. destruct ps as [|[n v] ps]; [done|].
  unfold params_toString. rewrite fmap_cons. cbn [fst snd].
  destruct (_ <$> ps) as [|w ws]; cbn [join].
  - apply append_nonempty.
  - change (urlencode n +:+ "=" +:+ urlencode v)
      with (urlencode n +:+ String "=" (urlencode v)).
    destruct (urlencode n); [done|done].
Qed.

Lemma params_set_nonempty (name value : string) (ps : URLSearchParams) :
  params_set name value ps ≠ [].
Proof. destruct ps as [|[n v] ps]; simpl; [done|]. by destruct (String.eqb n name). Qed.

Lemma split_length (sep : ascii) (s : string) : 0 < length (split sep s).
Proof.
  induction s as [|c s IH]; simpl; [lia|].
  destruct (Ascii.eqb c sep); simpl; [lia|].
  destruct (split sep s); simpl; lia.
Qed.

(** The URL that deselects a facet: when [map] has a single segment the
    current path and query are kept. *)
Lemma unselect_single (facet : LegacyFacet) (url : URL) (map : string) :
  length (split "," map) = 1 →
  unselect facet url map = Ok (pathname url +:+ search url).
Proof. unfold unselect. by intros ->. Qed.

(** Otherwise the URL is built from the pathname without the first
    occurrence of the text [/Value], and the first segment equal to
    [Map] is cut out of the [map] parameter of the query. *)
Lemma unselect_many (facet : LegacyFacet) (url : URL) (map : string) :
  length (split "," map) ≠ 1 → Map facet ∈ split "," map →
  ∃ front back,
    split "," map = front ++ Map facet :: back
    ∧ (Map facet ∉ front)
    ∧ unselect facet url map
      = (newUrl ← new_URL (replace ("/" +:+ Value facet) "" (pathname url))
                          (origin url);
         mret (pathname newUrl +:+ "?"
               +:+ params_toString
                     (params_set "map" (join "," (front ++ back))
                                 (params_parse (search url))))).
Proof.
  intros Hlen Hin. unfold unselect.
  destruct (findIndex_first (λ segment, String.eqb segment (Map facet))
                            (split "," map))
    as (front & x & back & Hsplit & Hx & Hfront & Hindex).
  { exists (Map facet). split; [done|apply String.eqb_refl]. }
  apply String.eqb_eq in Hx as ->.
  exists front, back. split; [done|]. split.
  { intros Hin'. rewrite Forall_forall in Hfront.
    specialize (Hfront _ Hin'). by rewrite String.eqb_refl in Hfront. }
  apply Nat.eqb_neq in Hlen. rewrite Hlen, Hindex, Hsplit, splice_one.
  assert ((0 <? length (front ++ back))%nat = true) as ->.
  { apply Nat.ltb_lt. apply Nat.eqb_neq in Hlen.
    rewrite Hsplit, length_app in Hlen. simpl in Hlen.
    rewrite length_app. lia. }
  destruct (new_URL _ _) as [newUrl| |]; [|done..].
  cbn [mbind outcome_bind mret outcome_ret]. f_equal.
  unfold searchParams_set, searchParams.
  rewrite params_parse_set_search. unfold with_searchParams; simpl.
  by rewrite params_toString_nonempty by apply params_set_nonempty.
Qed.

(** The toggles of a returned filter, facet by facet. *)
Lemma legacyFacetToFilter_Ok name facets url map filter :
  legacyFacetToFilter name facets url map = Ok filter →
  let mapSegments : gset string := list_to_set (split "," map) in
  let pathSegments : gset string :=
    list_to_set (take (size mapSegments + 1) (split "/" (pathname url))) in
  filter_quantity filter = length facets
  ∧ filter_label filter = name
  ∧ filter_key filter = name
  ∧ Forall2
      (λ facet toggle,
         let selected := bool_decide (Map facet ∈ mapSegments)
                         && bool_decide (Value facet ∈ pathSegments) in
         (if selected then unselect facet url map else Ok (LinkEncoded facet))
         = Ok (toggle_url toggle)
         ∧ toggle = {| toggle_value := Value facet;
                       toggle_quantity := Quantity facet;
                       toggle_url := toggle_url toggle;
                       toggle_label := Name facet;
                       selected := selected |})
      facets (filter_values filter).
Proof.
  intros Hfilter mapSegments pathSegments. unfold legacyFacetToFilter in Hfilter.
  apply bind_Ok in Hfilter as (values & Hvalues & [= <-]). simpl.
  repeat split. apply Array_mapM_Ok in Hvalues.
  eapply Forall2_impl; [exact Hvalues|]. intros facet toggle Htoggle.
  cbv beta zeta in Htoggle. cbv zeta.
  apply bind_Ok in Htoggle as (href & Hhref & [= <-]). by simpl.
Qed.

(** C5 does not hold of the code: the url of a selected value need not
    have the facet removed from the path.  [unselect] cuts the first
    occurrence of the text [/Value] out of the pathname, which is not
    always the segment of the facet.  On the listing [/azulejo/azul] of
    the category [azulejo] filtered by the colour [azul], with
    [map = c,specificationFilter_1], the toggle of [azul] is selected and
    its url is [/ejo/azul?map=c]: the facet is removed from [map], its
    segment is still in the path and the category segment is cut in two. *)
Theorem legacyFacetToFilter_keeps_facet_in_path :
  legacyFacetToFilter "Cor" [Samples.blue] Samples.tiles_url
                      "c,specificationFilter_1"
  = Ok {| filter_quantity := 1;
          filter_label := "Cor";
          filter_key := "Cor";
          filter_values :=
            [ {| toggle_value := "azul";
                 toggle_quantity := 4%Q;
                 toggle_url := "/ejo/azul?map=c";
                 toggle_label := "Azul";
                 selected := true |} ] |}.
Proof. reflexivity. Qed.

(* ===================================================================== *)
(** ** Product pages *)
(* ===================================================================== *)

Lemma returns_bind {A B} (m : outcome A) (k : A → outcome B) :
  returns m → (∀ a, returns (k a)) → returns (m ≫= k).
Proof. intros [a ->] Hk. apply Hk. Qed.

Lemma returns_fmap {A B} (f : A → B) (m : outcome A) :
  returns m → returns (f <$> m).
Proof. intros [a ->]. by eexists. Qed.

Lemma returns_Array_mapM {A B} (f : A → outcome B) (l : list A) :
  Forall (λ x, returns (f x)) l → returns (Array_mapM f l).
Proof.
  induction 1 as [|x l Hx Hl IH]; [by eexists|]. rewrite Array_mapM_cons.
  apply returns_bind; [done|]. intros y.
  apply returns_bind; [done|]. intros ys. by eexists.
Qed.

Lemma returns_map_values {B} (values : option (list string)) (f : string → B) :
  is_Some values → returns (map_values values f).
Proof. intros [vs ->]. by eexists. Qed.

Lemma returns_splitCategory (cs : list string) :
  cs ≠ [] → returns (splitCategory (cs !! 0)).
Proof. destruct cs; [done|]. by eexists. Qed.

Lemma returns_toAdditionalPropertyCategories product :
  complete_product product → returns (toAdditionalPropertyCategories product).
Proof.
  intros (Hcats & Hids & _). unfold toAdditionalPropertyCategories.
  apply returns_bind; [by apply returns_splitCategory|]. intros ?.
  apply returns_bind; [by apply returns_splitCategory|]. intros ?. by eexists.
Qed.

Lemma returns_group_properties product :
  complete_product product →
  returns (if isLegacyProduct product
           then legacyToProductGroupAdditionalProperties product
           else Ok (toProductGroupAdditionalProperties product)).
Proof.
  intros (_ & _ & Hspecs & _).
  destruct (isLegacyProduct product) eqn:Hlegacy; [|by eexists].
  apply isLegacyProduct_origin in Hlegacy.
  unfold legacyToProductGroupAdditionalProperties.
  destruct (allSpecifications product) as [names|] eqn:Hnames; [|by eexists].
  apply returns_fmap, returns_Array_mapM.
  eapply Forall_impl; [by apply Hspecs|]. intros name Hname.
  by apply returns_map_values.
Qed.

Lemma returns_sku_properties sku :
  complete_sku sku →
  returns (if isLegacySku sku
           then toAdditionalPropertiesLegacy sku
           else toAdditionalProperties sku).
Proof.
  intros Hsku. unfold toAdditionalPropertiesLegacy, toAdditionalProperties.
  destruct (variations sku) as [vs|] eqn:Hvs; [|destruct (isLegacySku sku); by eexists].
  destruct (Hsku vs Hvs) as [Hlegacy Hmodern].
  destruct (isLegacySku sku) eqn:Hguard.
  - apply isLegacySku_variations in Hguard.
    apply returns_fmap, returns_Array_mapM.
    eapply Forall_impl; [by apply Hlegacy|]. intros v Hv.
    destruct v; by apply returns_map_values.
  - assert (¬ first_variation_is_string sku) as Hnot.
    { rewrite <-isLegacySku_variations. congruence. }
    apply returns_fmap, returns_Array_mapM.
    eapply Forall_impl; [by apply Hmodern|]. intros v (name & values & ->).
    by apply returns_map_values.
Qed.

Lemma returns_getProductURL url linkText skuId :
  returns (getCanonicalURL url linkText) →
  returns (getProductURL url linkText skuId).
Proof.
  intros Hurl. unfold getProductURL.
  apply returns_bind; [done|]. intros ?. by eexists.
Qed.

(** On a complete product the body of [toProduct] returns as soon as
    the function it calls on the items does and the URL of the product
    page is accepted. *)
Lemma returns_toProduct_body self product sku level options :
  complete_product product → complete_sku sku →
  returns (getCanonicalURL (options_url options) (linkText product)) →
  ((level < 1)%Z →
   Forall (λ sku', returns (self product sku' 1%Z options)) (items product)) →
  returns (toProduct_body self product sku level options).
Proof.
  intros Hproduct Hsku Hurl Hself. unfold toProduct_body.
  apply returns_bind; [by apply returns_group_properties|]. intros ?.
  apply returns_bind; [by apply returns_sku_properties|]. intros ?.
  apply returns_bind.
  { destruct (Z.ltb_spec level 1); [by apply returns_Array_mapM, Hself|by eexists]. }
  intros ?. apply returns_bind.
  { apply returns_splitCategory, Hproduct. }
  intros ?. apply returns_bind; [by apply returns_toAdditionalPropertyCategories|].
  intros ?. apply returns_bind; [by apply returns_getProductURL|].
  intros ?. apply returns_bind; [by apply returns_getProductURL|].
  intros ?. by eexists.
Qed.

Lemma returns_toProduct product sku level options :
  complete_product product → complete_sku sku →
  returns (getCanonicalURL (options_url options) (linkText product)) →
  returns (toProduct product sku level options).
Proof.
  intros Hproduct Hsku Hurl. apply returns_toProduct_body; [done..|]. intros _.
  eapply Forall_impl; [apply Hproduct|]. intros sku' Hsku'.
  apply (returns_toProduct_body (toProduct_fuel 0)); [done..|lia].
Qed.

Lemma no_Error_toProduct product sku level options :
  no_Error (toProduct product sku level options).
Proof.
  apply no_Error_toProduct_body. intros _ sku'.
  apply (no_Error_toProduct_body (toProduct_fuel 0)). lia.
Qed.

Lemma product_property_set_categories cs product name :
  is_Some (product_property product name) →
  is_Some (product_property (set_categories cs product) name).
Proof.
  unfold product_property. simpl.
  destruct (String.eqb name "categories"); [by eexists|done].
Qed.

Lemma complete_product_set_categories cs product :
  cs ≠ [] → complete_product product →
  complete_product (set_categories cs product).
Proof.
  intros Hcs (_ & Hids & Hspecs & Hitems). repeat split; [done..| |done].
  intros Horigin names Hnames. simpl in *.
  eapply Forall_impl; [by apply Hspecs|]. intros name.
  apply product_property_set_categories.
Qed.

Lemma find_variant_absent product maybeSkuId :
  List.find (λ item, bool_decide (Some (itemId item) = requested_id product maybeSkuId))
            (items product) = None
  ↔ variant_absent product maybeSkuId.
Proof.
  unfold variant_absent. split.
  - intros Hfind item Hitem. apply list_elem_of_In in Hitem.
    pose proof (find_none _ _ Hfind _ Hitem) as Hnone. simpl in Hnone.
    by apply bool_decide_eq_false in Hnone.
  - intros Habsent. destruct (List.find _ _) as [item|] eqn:Hfind; [|done].
    apply find_some in Hfind as [Hitem Heq].
    apply bool_decide_eq_true in Heq. apply list_elem_of_In in Hitem.
    by destruct (Habsent _ Hitem).
Qed.

(** [array.map] with an index: the elements are mapped one by one, each
    at its index. *)
Lemma Array_mapM_from_cons {A B} (f : nat → A → outcome B) index x l :
  Array_mapM_from f index (x :: l)
  = f index x ≫= λ y, Array_mapM_from f (S index) l ≫= λ ys, Ok (y :: ys).
Proof. reflexivity. Qed.

Lemma Array_mapM_from_Ok {A B} (f : nat → A → outcome B) index l l' :
  Array_mapM_from f index l = Ok l' →
  length l' = length l
  ∧ ∀ k x, l !! k = Some x → ∃ y, l' !! k = Some y ∧ f (index + k) x = Ok y.
Proof.
  revert index l'. induction l as [|x l IH]; intros index l'.
  - intros [= <-]. by split.
  - rewrite Array_mapM_from_cons. intros Hl.
    apply bind_Ok in Hl as (y & Hy & Hl).
    apply bind_Ok in Hl as (ys & Hys & [= <-]).
    apply IH in Hys as [Hlen Hys]. split; [simpl; lia|].
    intros [|k] x' Hx'.
    + injection Hx' as <-. exists y. by rewrite Nat.add_0_r.
    + destruct (Hys k x' Hx') as (y' & Hy' & Hf). exists y'.
      split; [done|]. by rewrite Nat.add_succ_r.
Qed.

Lemma returns_Array_mapM_from {A B} (f : nat → A → outcome B) index l :
  Forall (λ x, ∀ k, returns (f k x)) l → returns (Array_mapM_from f index l).
Proof.
  intros Hl. revert index. induction Hl as [|x l Hx Hl IH]; intros index.
  - by eexists.
  - rewrite Array_mapM_from_cons.
    apply returns_bind; [done|]. intros y.
    apply returns_bind; [done|]. intros ys. by eexists.
Qed.

Lemma no_Error_Array_mapM_from {A B} (f : nat → A → outcome B) index l :
  (∀ k x, no_Error (f k x)) → no_Error (Array_mapM_from f index l).
Proof.
  intros Hf. revert index. induction l as [|x l IH]; intros index; [done|].
  rewrite Array_mapM_from_cons.
  apply no_Error_bind; [done|]. intros y.
  apply no_Error_bind; [done|]. by intros.
Qed.

Section Pages.
Context `{Slugify}.

Lemma no_Error_toBreadcrumbList product options :
  no_Error (toBreadcrumbList product options).1.
Proof.
  unfold toBreadcrumbList; simpl.
  apply no_Error_bind.
  { apply no_Error_Array_mapM_from. intros k categoryPath.
    apply no_Error_bind; [apply no_Error_new_URL|done]. }
  intros elements. apply no_Error_bind; [apply no_Error_new_URL|done].
Qed.

(** The breadcrumb is returned when the URL constructor accepts the
    paths of the page. *)
Lemma returns_toBreadcrumbList product options :
  paths_accepted product options → returns (toBreadcrumbList product options).1.
Proof.
  unfold paths_accepted, page_paths. rewrite Forall_app, Forall_fmap.
  intros [Hcategories Hproduct%Forall_inv].
  unfold toBreadcrumbList; simpl.
  apply returns_bind.
  { apply returns_Array_mapM_from. apply Forall_reverse.
    eapply Forall_impl; [exact Hcategories|]. intros categoryPath Hpath k.
    apply returns_bind; [exact Hpath|]. intros ?. by eexists. }
  intros elements. apply returns_bind; [exact Hproduct|]. intros ?. by eexists.
Qed.

(** Conversely, a returned breadcrumb has had all its paths accepted. *)
Lemma toBreadcrumbList_accepted product options :
  returns (toBreadcrumbList product options).1 → paths_accepted product options.
Proof.
  intros [breadcrumb Hb]. unfold toBreadcrumbList in Hb; simpl in Hb.
  apply bind_Ok in Hb as (elements & Helements & Hb).
  apply bind_Ok in Hb as (productUrl & Hurl & _).
  unfold paths_accepted, page_paths. rewrite Forall_app, Forall_fmap. split.
  - apply Array_mapM_from_Ok in Helements as [_ Helements].
    rewrite <-(reverse_involutive (categories product)). apply Forall_reverse.
    apply Forall_lookup. intros k categoryPath Hk.
    destruct (Helements _ _ Hk) as (element & _ & Helement).
    apply bind_Ok in Helement as (itemUrl & HitemUrl & _). by exists itemUrl.
  - constructor; [|done]. by exists productUrl.
Qed.

(** [toProductPage], by cases on the search for the variant. *)
Lemma toProductPage_unfold product maybeSkuId options :
  toProductPage product maybeSkuId options
  = match List.find (λ item, bool_decide (Some (itemId item)
                                          = requested_id product maybeSkuId))
                    (items product) with
    | None =>
        (Throw (Error ("Missing sku " +:+ show_id (requested_id product maybeSkuId)
                       +:+ " on product " +:+ productName product)),
         product)
    | Some sku =>
        (breadcrumbList ← (toBreadcrumbList product options).1;
         p ← toProduct (toBreadcrumbList product options).2 sku 0%Z options;
         mret {| breadcrumbList := breadcrumbList; product := p |},
         (toBreadcrumbList product options).2)
    end.
Proof.
  unfold toProductPage, requested_id.
  replace (items product !! 0) with (head (items product))
    by by destruct (items product).
  reflexivity.
Qed.

(** C1 (as amended).  [toProductPage] raises its [Error]
    ("Missing sku ... on product ...") if and only if the requested
    variant id is absent: the id (or, without one, the [itemId] of the
    first item) matches no item of the product.  When the id is present,
    the product is complete (it has a category path and a category id
    path, and the names listed by a legacy product and by its skus have
    their arrays of values) and the URL constructor accepts the paths of
    the page ([/linkText/p] and the slugified category paths),
    [toProductPage] returns a page. *)
Theorem toProductPage_missing_sku product maybeSkuId options :
  ((∃ message, (toProductPage product maybeSkuId options).1 = Throw (Error message))
   ↔ variant_absent product maybeSkuId)
  ∧ (¬ variant_absent product maybeSkuId →
     complete_product product →
     paths_accepted product options →
     returns (toProductPage product maybeSkuId options).1).
Proof.
  rewrite toProductPage_unfold, <-find_variant_absent.
  destruct (List.find _ _) as [sku|] eqn:Hfind; cbn [fst].
  - split.
    + split; [|done]. intros [message Hthrow]. exfalso. revert Hthrow.
      apply no_Error_bind; [apply no_Error_toBreadcrumbList|]. intros b.
      apply no_Error_bind; [apply no_Error_toProduct|]. by intros p.
    + intros _ Hproduct Hpaths. apply find_some in Hfind as [Hsku _].
      apply list_elem_of_In in Hsku.
      apply returns_bind; [by apply returns_toBreadcrumbList|]. intros b.
      apply returns_bind; [|by eexists].
      apply returns_toProduct.
      * apply complete_product_set_categories; [|done].
        destruct Hproduct as [Hcats _]. intros Hrev. apply Hcats.
        by rewrite <-(reverse_involutive (categories product)), Hrev.
      * destruct Hproduct as (_ & _ & _ & Hitems).
        rewrite Forall_forall in Hitems. by apply Hitems.
      * unfold paths_accepted, page_paths in Hpaths.
        rewrite Forall_app in Hpaths. destruct Hpaths as [_ Hpage%Forall_inv].
        exact Hpage.
  - split; [|done]. split; [done|]. by eexists.
Qed.

End Pages.

(** C1 (as stated) fails.  On a product without a category path the
    requested variant is found, and reading the first category raises a
    [TypeError]. *)
Lemma toProductPage_throws_without_category :
  ¬ (∀ (parser : URLStandard) (slugify : Slugify) product maybeSkuId options,
       throws (toProductPage (H := slugify) (H0 := parser)
                             product maybeSkuId options).1
       ↔ variant_absent product maybeSkuId).
Proof.
  intros Hclaim.
  destruct (Hclaim Samples.sample_standard Samples.sample_slugify
                   Samples.uncategorized_product None
                   Samples.request) as [Habsent _].
  apply (Habsent ltac:(eexists; vm_compute; reflexivity)
                 Samples.sku_cheaper_out_of_stock).
  - apply list_elem_of_here.
  - reflexivity.
Qed.

(** C2 fails on the code.  [toProductPage] leaves the [categories] of
    the product it was given in reverse order, and a second call on the
    same product object returns a different page: the category of its
    product is [Calcados>Tenis] where the first call had [Calcados]. *)
Lemma toProductPage_reverses_categories :
  let toProductPage := toProductPage (H := Samples.sample_slugify)
                                     (H0 := Samples.sample_standard) in
  let first := toProductPage Samples.legacy_product None Samples.request in
  let second := toProductPage first.2 None Samples.request in
  categories Samples.legacy_product = ["/Calcados/Tenis/"; "/Calcados/"]
  ∧ categories first.2 = ["/Calcados/"; "/Calcados/Tenis/"]
  ∧ (λ page, category (product page)) <$> first.1 = Ok "Calcados"
  ∧ (λ page, category (product page)) <$> second.1 = Ok "Calcados>Tenis".
Proof. vm_compute. done. Qed.

End Mapping.

(* ===================================================================== *)
(** ** The statements at work on the sample catalog *)
(* ===================================================================== *)

(** The legacy sample product is complete. *)
Lemma sample_legacy_product_complete : complete_product Samples.legacy_product.
Proof.
  split; [done|]. split; [done|]. split.
  - intros _ names [= <-]. repeat constructor. by eexists.
  - constructor; [|constructor]. intros vs' [= <-]. split.
    + intros _. repeat constructor. by eexists.
    + intros Hnot. destruct Hnot. by eexists _, _.
Defined.

(** C1 on the legacy sample product: its first item is found and the page
    is returned. *)
Lemma toProductPage_missing_sku_witness :
  returns (toProductPage (H := Samples.sample_slugify)
                         (H0 := Samples.sample_standard)
                         Samples.legacy_product None Samples.request).1.
Proof.
  apply (toProductPage_missing_sku (H := Samples.sample_standard)
                                   (H0 := Samples.sample_slugify)
                                   Samples.legacy_product None Samples.request).
  - intros Habsent. apply (Habsent Samples.sku_cheaper_out_of_stock).
    + apply list_elem_of_here.
    + reflexivity.
  - apply sample_legacy_product_complete.
  - repeat constructor; by eexists.
Defined.

(** C3 on a sku with four sellers: the first two offers are in price
    order. *)
Lemma offers_stock_then_price_witness :
  ∃ a b, sku_offers Samples.sku_four_sellers !! 0 = Some a
         ∧ sku_offers Samples.sku_four_sellers !! 1 = Some b
         ∧ (price a <= price b)%Q.
Proof.
  destruct (offers_stock_then_price (H := Samples.sample_standard)
                                    Samples.sku_four_sellers)
    as (_ & _ & Hprice & _).
  eexists _, _. split; [vm_compute; reflexivity|].
  split; [vm_compute; reflexivity|].
  eapply (Hprice 0 1); [vm_compute; reflexivity..|lia|reflexivity].
Defined.

(** C4 on a sku with three sellers in stock: the range of the available
    prices. *)
Lemma aggregateOffer_price_range_witness :
  ∃ p agg low high,
    toProduct (H0 := Samples.sample_standard) Samples.search_product Samples.sku_four_sellers 1%Z Samples.request
    = Ok p
    ∧ aggregateOffer p = Some agg
    ∧ lowPrice agg = Some low ∧ highPrice agg = Some high
    ∧ minimum_of low (price <$> filter available (offers agg))
    ∧ maximum_of high (price <$> filter available (offers agg)).
Proof.
  destruct (toProduct (H0 := Samples.sample_standard) Samples.search_product Samples.sku_four_sellers 1%Z
                      Samples.request) as [p| |] eqn:Hp;
    [|vm_compute in Hp; discriminate..].
  destruct (aggregateOffer_price_range _ _ _ _ p Hp) as (agg & Hagg & _ & Hin & _);
    [done|].
  destruct Hin as (low & high & Hlow & Hhigh & Hmin & Hmax).
  { apply Exists_cons_hd. reflexivity. }
  by exists p, agg, low, high.
Defined.

(** C6 on the legacy sample product: the group properties come from the
    legacy mapping. *)
Lemma toProduct_selects_mapping_witness :
  ∃ p, toProduct (H0 := Samples.sample_standard) Samples.legacy_product Samples.sku_cheaper_out_of_stock 0%Z
                 Samples.request = Ok p
       ∧ legacyToProductGroupAdditionalProperties Samples.legacy_product
         = Ok (group_additionalProperty (isVariantOf p)).
Proof.
  destruct (toProduct (H0 := Samples.sample_standard) Samples.legacy_product Samples.sku_cheaper_out_of_stock 0%Z
                      Samples.request) as [p| |] eqn:Hp;
    [|vm_compute in Hp; discriminate..].
  exists p. split; [done|].
  destruct (toProduct_selects_mapping _ _ _ _ p Hp) as (_ & _ & Hlegacy & _).
  by apply Hlegacy.
Defined.

(** C7 on a seller with a spot price. *)
Lemma toOffer_price_witness :
  price (toOffer (Samples.seller "c" (Some 20%Q) 25%Q 2%Q)) = 20%Q.
Proof.
  destruct (toOffer_price (Samples.seller "c" (Some 20%Q) 25%Q 2%Q)) as (Hspot & _).
  by apply Hspot.
Defined.

(** C8 on the legacy sample product. *)
Lemma toProduct_urls_witness :
  ∃ p, toProduct (H0 := Samples.sample_standard) Samples.legacy_product Samples.sku_cheaper_out_of_stock 0%Z
                 Samples.request = Ok p
       ∧ url p = "https://store.example/tenis-azul/p?skuId=1".
Proof.
  destruct (toProduct (H0 := Samples.sample_standard) Samples.legacy_product Samples.sku_cheaper_out_of_stock 0%Z
                      Samples.request) as [p| |] eqn:Hp;
    [|vm_compute in Hp; discriminate..].
  exists p. split; [done|].
  assert (plain_page (options_url Samples.request)
                     (linkText Samples.legacy_product)) as Hplain
    by done.
  destruct (toProduct_urls (H0 := Samples.sample_slugify) _ _ _ _ p Hplain Hp)
    as (Hvariant & _).
  destruct Hvariant as [-> _]; [done|reflexivity].
Defined.

(** C9 on two selected facets. *)
Lemma filters_roundtrip_witness :
  filtersFromSearchParams
    (filtersToSearchParams [ {| key := "cor"; value := "azul" |};
                             {| key := "tamanho"; value := "42" |} ])
  = [ {| key := "cor"; value := "azul" |}; {| key := "tamanho"; value := "42" |} ].
Proof. apply filters_roundtrip. by repeat constructor. Defined.

(** C10 on the legacy sample product, with a budget of five. *)
Lemma toProduct_terminates_depth_one_witness :
  ∃ p, toProduct_fuel (H0 := Samples.sample_standard) 5 Samples.legacy_product Samples.sku_cheaper_out_of_stock 0%Z
                      Samples.request = Ok p
       ∧ Forall (λ v, hasVariant (isVariantOf v) = []) (hasVariant (isVariantOf p)).
Proof.
  destruct (toProduct_terminates_depth_one (H := Samples.sample_standard)
              Samples.legacy_product Samples.sku_cheaper_out_of_stock 0%Z
              Samples.request) as (Hfuel & _ & Hvariants).
  change 5 with (2 + 3). rewrite (Hfuel 3).
  destruct (toProduct (H0 := Samples.sample_standard) Samples.legacy_product Samples.sku_cheaper_out_of_stock 0%Z
                      Samples.request) as [p| |] eqn:Hp;
    [|vm_compute in Hp; discriminate..].
  exists p. split; [done|]. by apply Hvariants.
Defined.

(* ===================================================================== *)
(** ** Further properties of the product mapping *)
(* ===================================================================== *)

Section ProductProperties.
Context `{URLStandard}.

(** The identity of a returned product is that of the sku. *)
Lemma toProduct_body_identity self vendor item level options p :
  toProduct_body self vendor item level options = Ok p →
  productID p = itemId item ∧ sku p = itemId item ∧ name p = sku_name item
  ∧ gtin p = ean item
  ∧ image p = (λ i, {| alternateName := default "" (imageText i);
                       image_url := imageUrl i |})
                <$> default [DEFAULT_IMAGE] (nonEmptyArray (images item)).
Proof.
  unfold toProduct_body. intros Hp.
  apply bind_Ok in Hp as (gp & _ & Hp).
  apply bind_Ok in Hp as (sp & _ & Hp).
  apply bind_Ok in Hp as (vs & _ & Hp).
  apply bind_Ok in Hp as (cs & _ & Hp).
  apply bind_Ok in Hp as (cp & _ & Hp).
  apply bind_Ok in Hp as (pu & _ & Hp).
  by apply bind_Ok in Hp as (gu & _ & [= <-]).
Qed.

(** What [array.map] with an index returns, read through a function of
    the results that depends on the index and the element only. *)
Lemma Array_mapM_from_fmap {A B C} (f : nat → A → outcome B) (g : B → C)
    (h : nat → A → C) index l l' :
  (∀ k x y, f k x = Ok y → g y = h k x) →
  Array_mapM_from f index l = Ok l' →
  g <$> l' = imap (λ k, h (index + k)) l.
Proof.
  intros Hgh. revert index l'. induction l as [|x l IH]; intros index l'.
  - by intros [= <-].
  - rewrite Array_mapM_from_cons. intros Hl.
    apply bind_Ok in Hl as (y & Hy & Hl).
    apply bind_Ok in Hl as (ys & Hys & [= <-]).
    rewrite fmap_cons, imap_cons, (IH _ _ Hys), (Hgh _ _ _ Hy), Nat.add_0_r.
    f_equal. apply imap_ext. intros k x' _. simpl. f_equal. lia.
Qed.

Section BreadcrumbList.
Context `{Slugify}.

(** X1.  [toBreadcrumbList] returns the breadcrumb of a product exactly
    when the URL constructor accepts the paths of its items.  The
    breadcrumb has one item per category path and a final item for the
    product: [numberOfItems] is the length of the list, the positions
    count 1, 2, 3, ... along the list, and the names are the last
    segments of the category paths, from the last path to the first,
    followed by the name of the product. *)
Theorem toBreadcrumbList_positions vendor options :
  (returns (toBreadcrumbList vendor options).1 ↔ paths_accepted vendor options)
  ∧ (∀ list,
       (toBreadcrumbList vendor options).1 = Ok list →
       numberOfItems list = length (itemListElement list)
       ∧ numberOfItems list = length (categories vendor) + 1
       ∧ position <$> itemListElement list = seq 1 (numberOfItems list)
       ∧ item_name <$> itemListElement list
         = ((λ path, last (filter_Boolean (split "/" path)))
              <$> reverse (categories vendor))
           ++ [Some (productName vendor)]).
Proof.
  split.
  { split; [apply toBreadcrumbList_accepted|apply returns_toBreadcrumbList]. }
  intros list. unfold toBreadcrumbList; simpl.
  set (cs := reverse (categories vendor)).
  assert (length cs = length (categories vendor)) as Hlen by apply length_reverse.
  intros Hlist. apply bind_Ok in Hlist as (elements & Helements & Hlist).
  apply bind_Ok in Hlist as (productUrl & _ & [= <-]). simpl.
  unfold Array_imapM in Helements.
  pose proof (Array_mapM_from_Ok _ _ _ _ Helements) as [Hlength _].
  pose proof (λ C (g : ListItem → C) h Hgh,
                Array_mapM_from_fmap _ g h _ _ _ Hgh Helements) as Hmap.
  rewrite length_app, Hlength. simpl.
  split; [done|]. split; [lia|].
  rewrite !fmap_app. simpl. split.
  - rewrite (Hmap _ position (λ k _, k + 1))
      by (intros k x y (u & _ & [= <-])%bind_Ok; reflexivity).
    rewrite Nat.add_1_r, seq_S.
    replace (1 + length cs) with (S (length cs)) by lia. f_equal.
    rewrite (imap_ext _ (λ j _, S j)) by (intros; simpl; lia).
    by rewrite imap_seq_0, fmap_S_seq.
  - rewrite (Hmap _ item_name (λ _ path, last (filter_Boolean (split "/" path))))
      by (intros k x y (u & _ & [= <-])%bind_Ok; reflexivity).
    f_equal. apply imap_const.
Qed.

End BreadcrumbList.

Section RequestedVariant.
Context `{Slugify}.

(** X2.  A page that [toProductPage] returns is the page of the requested
    variant: the [sku] and [productID] of its product are the requested
    id, its name is the name of the first item of the vendor product
    with that id, and its breadcrumb has one item per category path plus
    one. *)
Theorem toProductPage_requested_variant vendor maybeSkuId options page :
  (toProductPage vendor maybeSkuId options).1 = Ok page →
  requested_id vendor maybeSkuId = Some (sku (product page))
  ∧ productID (product page) = sku (product page)
  ∧ (∃ i item,
       items vendor !! i = Some item
       ∧ itemId item = sku (product page)
       ∧ name (product page) = sku_name item
       ∧ ∀ j other, j < i → items vendor !! j = Some other →
                    itemId other ≠ sku (product page))
  ∧ numberOfItems (breadcrumbList page) = length (categories vendor) + 1.
Proof.
  rewrite toProductPage_unfold.
  destruct (List.find _ _) as [item|] eqn:Hfind; cbn [fst]; [|done].
  intros Hpage. apply bind_Ok in Hpage as (b & Hb & Hpage).
  apply bind_Ok in Hpage as (p & Hp & [= <-]). cbn [product breadcrumbList].
  apply toProduct_body_identity in Hp as (Hid & Hsku & Hname & _).
  rewrite Hid, Hsku, Hname.
  pose proof (find_some _ _ Hfind) as [_ Hreq].
  apply bool_decide_eq_true in Hreq.
  split; [done|]. split; [done|]. split.
  - clear Hid Hsku Hname. revert Hfind. generalize (items vendor) as l.
    induction l as [|x l IH]; [done|]. simpl.
    destruct (bool_decide _) eqn:Hx.
    + intros [= ->]. exists 0, item. split; [done|]. split; [done|].
      split; [done|]. intros; lia.
    + intros Hfind. destruct (IH Hfind) as (i & item' & Hi & Hitem & Hn & Hfirst).
      exists (S i), item'. split; [done|]. split; [done|]. split; [done|].
      intros [|j] other Hj Hother.
      * injection Hother as <-. apply bool_decide_eq_false in Hx.
        intros Heq. apply Hx. by rewrite Heq.
      * apply (Hfirst j); [lia|done].
  - unfold toBreadcrumbList in Hb; simpl in Hb.
    apply bind_Ok in Hb as (elements & _ & Hb).
    apply bind_Ok in Hb as (productUrl & _ & [= <-]). simpl.
    by rewrite length_reverse.
Qed.

End RequestedVariant.

(* ===================================================================== *)
(** ** Further properties of the aggregate offer *)
(* ===================================================================== *)

(** X3.  [getHighPriceIndex] returns [-1] on an empty array and an index
    of the array otherwise; every offer behind that index is out of
    stock, and the offer at that index is in stock unless the index is
    zero. *)
Theorem getHighPriceIndex_bounds (offers : list Offer) :
  (offers = [] → getHighPriceIndex offers = (-1)%Z)
  ∧ (offers ≠ [] → (0 ≤ getHighPriceIndex offers < Z.of_nat (length offers))%Z)
  ∧ (∀ k o, (getHighPriceIndex offers < k)%Z →
            offers !! Z.to_nat k = Some o → inStock o = false)
  ∧ (∀ o, (0 < getHighPriceIndex offers)%Z →
          offer_at offers (getHighPriceIndex offers) = Some o →
          inStock o = true).
Proof.
  destruct offers as [|first rest] eqn:Hoffers; [by repeat split|].
  rewrite <-Hoffers.
  assert (length offers - 1 < length offers) as Hlast
    by (rewrite Hoffers; simpl; lia).
  destruct (highPriceLoop_spec offers _ Hlast) as (Hle & Hout & Hstop).
  assert (getHighPriceIndex offers
          = Z.of_nat (highPriceLoop offers (length offers - 1))) as ->.
  { unfold getHighPriceIndex. by rewrite Hoffers. }
  split; [by rewrite Hoffers|]. split; [lia|]. split.
  - intros k o Hk Ho. pose proof (lookup_lt_Some _ _ _ Ho).
    apply (Hout (Z.to_nat k)); [lia|done].
  - intros o Hpos. unfold offer_at.
    replace (_ <? 0)%Z with false by lia. rewrite Nat2Z.id. intros Ho.
    destruct Hstop as [Hzero|(o' & Ho' & Hin)]; [lia|congruence].
Qed.

(** X4.  A returned product has an aggregate offer exactly when the sku
    has a seller.  The aggregate offer counts one offer per seller, its
    [lowPrice] and [highPrice] are prices of offers of the sku (never
    [null]), and [lowPrice] does not exceed [highPrice]. *)
Theorem aggregateOffer_well_formed vendor item level options p :
  toProduct vendor item level options = Ok p →
  (aggregateOffer p = None ↔ sellers item = [])
  ∧ (∀ agg, aggregateOffer p = Some agg →
       offerCount agg = length (sellers item)
       ∧ length (offers agg) = length (sellers item)
       ∧ ∃ low high,
           lowPrice agg = Some low ∧ highPrice agg = Some high
           ∧ low ∈ price <$> offers agg ∧ high ∈ price <$> offers agg
           ∧ (low <= high)%Q).
Proof.
  intros Hp. apply toProduct_body_aggregateOffer in Hp.
  assert (length (sku_offers item) = length (sellers item)) as Hlen.
  { by rewrite sku_offers_perm, length_fmap. }
  rewrite Hp. clear Hp. destruct (sellers item) as [|s ss] eqn:Hsellers.
  - destruct (sku_offers item); [|done]. by split.
  - assert ((0 <? length (sku_offers item))%nat = true) as ->
      by (apply Nat.ltb_lt; rewrite Hlen; simpl; lia).
    split; [by split|]. intros agg [= <-]. simpl.
    split; [done|]. split; [done|].
    pose proof (sku_offers_sorted item) as Hsorted.
    destruct (decide (Exists available (sku_offers item))) as [Hex|Hnone].
    + destruct (sorted_price_range _ Hsorted Hex)
        as (low & high & Hlow & Hhigh & [Hlowin Hmin] & [Hhighin Hmax]).
      exists low, high. split; [done|]. split; [done|].
      assert (∀ x, x ∈ price <$> filter available (sku_offers item) →
                   x ∈ price <$> sku_offers item) as Hsub.
      { intros x (o & -> & Ho)%list_elem_of_fmap.
        apply list_elem_of_filter in Ho as [_ Ho]. by apply list_elem_of_fmap_2. }
      split; [by apply Hsub|]. split; [by apply Hsub|].
      rewrite Forall_forall in Hmax. by apply Hmax.
    + apply not_Exists_Forall in Hnone; [|apply _].
      destruct (sorted_lowest_price _ Hsorted Hnone) as (low & Hlow & [Hlowin _]).
      { intros Hnil. by rewrite Hnil in Hlen. }
      assert (getHighPriceIndex (sku_offers item) = 0%Z) as Hzero.
      { destruct (sku_offers item) as [|first rest] eqn:Hoffers; [done|].
        rewrite <-Hoffers in *.
        assert (length (sku_offers item) - 1 < length (sku_offers item)) as Hlast
          by (rewrite Hoffers; simpl; lia).
        destruct (highPriceLoop_spec _ _ Hlast) as (_ & _ & Hstop).
        unfold getHighPriceIndex. rewrite Hoffers. rewrite <-Hoffers.
        destruct Hstop as [->|(o & Ho & Hin)]; [done|]. exfalso.
        rewrite Forall_forall in Hnone.
        apply (Hnone o); [by eapply list_elem_of_lookup_2|].
        by apply available_inStock. }
      exists low, low. rewrite Hzero. split; [done|]. split; [done|].
      split; [done|]. split; [done|]. apply Qle_refl.
Qed.

(* ===================================================================== *)
(** ** Images, variants and failures of [toProduct] *)
(* ===================================================================== *)

(** X5.  A returned product always has an image.  A sku without images
    (the field absent or an empty array) gets the placeholder image
    alone; otherwise the product has the images of the sku, in order,
    with an empty alternate name where the image has no text. *)
Theorem toProduct_image vendor item level options p :
  toProduct vendor item level options = Ok p →
  image p ≠ []
  ∧ (images item = None ∨ images item = Some [] →
     image p = [ {| alternateName := "image"; image_url := imageUrl DEFAULT_IMAGE |} ])
  ∧ (∀ imgs, images item = Some imgs → imgs ≠ [] →
       image_url <$> image p = imageUrl <$> imgs
       ∧ alternateName <$> image p = (λ i, default "" (imageText i)) <$> imgs).
Proof.
  intros Hp. apply toProduct_body_identity in Hp as (_ & _ & _ & _ & ->).
  split; [|split].
  - by destruct (images item) as [[|i imgs]|].
  - by intros [->| ->].
  - intros imgs -> Hne. destruct imgs as [|i imgs]; [done|].
    cbn [nonEmptyArray default]. by rewrite <-!list_fmap_compose.
Qed.

(** The variants computed for the items. *)
Lemma variants_of_items self vendor options (skus : list SkuVTEX) (vs : list Product) :
  Forall2 (λ sku' v, toProduct_body self vendor sku' 1%Z options = Ok v) skus vs →
  sku <$> vs = itemId <$> skus
  ∧ name <$> vs = sku_name <$> skus.
Proof.
  induction 1 as [|sku' v skus vs Hv _ [IHsku IHname]]; [done|].
  apply toProduct_body_identity in Hv as (_ & Hsku & Hname & _).
  rewrite !fmap_cons. by rewrite Hsku, Hname, IHsku, IHname.
Qed.

(** X6.  Called below level one, [toProduct] returns a product whose
    group lists one variant per item of the vendor product, in the order
    of the items and under their ids and names: the sku itself is among
    them.  Called at level one or above, it returns a product without
    variants. *)
Theorem toProduct_hasVariant vendor item level options p :
  toProduct vendor item level options = Ok p →
  ((level < 1)%Z →
   sku <$> hasVariant (isVariantOf p) = itemId <$> items vendor
   ∧ name <$> hasVariant (isVariantOf p) = sku_name <$> items vendor)
  ∧ ((1 ≤ level)%Z → hasVariant (isVariantOf p) = []).
Proof.
  intros Hp. apply toProduct_body_hasVariant in Hp.
  destruct (Z.ltb_spec level 1) as [Hlt|Hge].
  - split; [|lia]. intros _. by eapply variants_of_items.
  - split; [lia|done].
Qed.

(** A traversal whose callback raises the same exception on every
    element raises it, unless the array is empty. *)
Lemma Array_mapM_Throw {A B} (f : A → outcome B) (l : list A) (e : error) :
  Forall (λ x, f x = Throw e) l →
  Array_mapM f l = match l with [] => Ok [] | _ => Throw e end.
Proof. destruct 1 as [|x l Hx _]; [done|]. by rewrite Array_mapM_cons, Hx. Qed.

(** Past the lookups of the specifications, the body of [toProduct]
    fails on the first category path it reads. *)
Lemma toProduct_body_split self vendor item level options :
  categories vendor = [] ∨ categoriesIds vendor = [] →
  returns (if isLegacyProduct vendor
           then legacyToProductGroupAdditionalProperties vendor
           else Ok (toProductGroupAdditionalProperties vendor)) →
  returns (if isLegacySku item
           then toAdditionalPropertiesLegacy item
           else toAdditionalProperties item) →
  ((level < 1)%Z →
   Forall (λ sku', self vendor sku' 1%Z options
                   = Throw (TypeError "Cannot read properties of undefined (reading 'split')"))
          (items vendor)) →
  toProduct_body self vendor item level options
  = Throw (TypeError "Cannot read properties of undefined (reading 'split')").
Proof.
  intros Hempty [gp Hgp] [sp Hsp] Hself. unfold toProduct_body.
  rewrite Hgp, Hsp. cbn [mbind outcome_bind].
  assert ((if (level <? 1)%Z
           then Array_mapM (λ sku', self vendor sku' 1%Z options) (items vendor)
           else Ok [])
          = Throw (TypeError "Cannot read properties of undefined (reading 'split')")
          ∨ ∃ vs, (if (level <? 1)%Z
                   then Array_mapM (λ sku', self vendor sku' 1%Z options)
                                   (items vendor)
                   else Ok []) = Ok vs) as [-> | [vs ->]]; [|done|].
  { destruct (Z.ltb_spec level 1) as [Hlt|_]; [|by eauto].
    rewrite (Array_mapM_Throw _ _ _ (Hself Hlt)).
    destruct (items vendor); eauto. }
  cbn [mbind outcome_bind].
  destruct (categories vendor) as [|c cs] eqn:Hcats; [done|].
  destruct Hempty as [?|Hids]; [done|].
  unfold toAdditionalPropertyCategories. by rewrite Hcats, Hids.
Qed.

(** X7.  On a vendor product without a category path, or without a
    category id path, [toProduct] never returns: it raises a
    [TypeError], for every sku and at every level.  When the lookups of
    the specifications of the product, of the sku and (below level one)
    of the items of the product succeed, it is the [TypeError] of
    reading [split] of [undefined]. *)
Theorem toProduct_needs_categories vendor item level options :
  categories vendor = [] ∨ categoriesIds vendor = [] →
  ∃ message,
    toProduct vendor item level options = Throw (TypeError message)
    ∧ (returns (if isLegacyProduct vendor
                then legacyToProductGroupAdditionalProperties vendor
                else Ok (toProductGroupAdditionalProperties vendor)) →
       Forall (λ sku', returns (if isLegacySku sku'
                                then toAdditionalPropertiesLegacy sku'
                                else toAdditionalProperties sku'))
              (item :: if (level <? 1)%Z then items vendor else []) →
       message = "Cannot read properties of undefined (reading 'split')").
Proof.
  intros Hempty.
  destruct (toProduct vendor item level options) as [p|[message|message]|] eqn:Hp.
  - exfalso. unfold toProduct in Hp. cbn [toProduct_fuel] in Hp.
    unfold toProduct_body in Hp.
    apply bind_Ok in Hp as (gp & _ & Hp).
    apply bind_Ok in Hp as (sp & _ & Hp).
    apply bind_Ok in Hp as (vs & _ & Hp).
    apply bind_Ok in Hp as (cs & Hcs & Hp).
    apply bind_Ok in Hp as (cp & Hcp & _).
    destruct Hempty as [Hcats|Hids].
    + by rewrite Hcats in Hcs.
    + unfold toAdditionalPropertyCategories in Hcp.
      apply bind_Ok in Hcp as (? & _ & Hcp).
      apply bind_Ok in Hcp as (? & Hsplit & _).
      by rewrite Hids in Hsplit.
  - exfalso. by eapply no_Error_toProduct.
  - exists message. split; [done|]. intros Hgroup Hskus.
    apply Forall_cons in Hskus as [Hitem Hitems].
    unfold toProduct in Hp. cbn [toProduct_fuel] in Hp.
    rewrite toProduct_body_split in Hp; [by injection Hp|done..|].
    intros Hlt. apply Z.ltb_lt in Hlt. rewrite Hlt in Hitems.
    eapply Forall_impl; [exact Hitems|]. intros sku' Hsku'.
    apply toProduct_body_split; [done..|lia].
  - exfalso. revert Hp. apply halts_toProduct_body. intros _ sku'.
    apply (halts_toProduct_body (toProduct_fuel 0)). lia.
Qed.

End ProductProperties.

(* ===================================================================== *)
(** ** Search parameters and selected facets, in general *)
(* ===================================================================== *)

Lemma split_cons_inv (sep : ascii) (s : string) :
  ∃ w ws, split sep s = w :: ws.
Proof.
  induction s as [|c s (w & ws & IH)]; simpl; [by eexists _, _|].
  destruct (Ascii.eqb c sep); [by eexists _, _|]. rewrite IH. by eexists _, _.
Qed.

Lemma split_app_separator (sep : ascii) (a b : string) :
  includes sep a = false →
  split sep (a +:+ String sep b) = a :: split sep b.
Proof.
  induction a as [|c a IH]; simpl.
  - intros _. by rewrite Ascii.eqb_refl.
  - intros [Hc Ha]%orb_false_iff. by rewrite Hc, IH.
Qed.

Lemma join_cons_cons (sep w w' : string) (ws : list string) :
  join sep (w :: w' :: ws) = w +:+ sep +:+ join sep (w' :: ws).
Proof. reflexivity. Qed.

Lemma join_split (sep : ascii) (s : string) :
  join (String sep "") (split sep s) = s.
Proof.
  induction s as [|c s IH]; [done|]. cbn [split].
  destruct (split_cons_inv sep s) as (w & ws & Hs). rewrite Hs in *.
  destruct (Ascii.eqb_spec c sep) as [->|_].
  - by rewrite join_cons_cons, IH.
  - destruct ws as [|w' ws]; [by rewrite <-IH|].
    rewrite join_cons_cons in *. by rewrite <-IH.
Qed.

Lemma split_filter_prefix (k : string) :
  split "." ("filter." +:+ k) = "filter" :: split "." k.
Proof. by apply (split_app_separator "." "filter" k). Qed.

Lemma filtersFromSearchParams_app (ps1 ps2 : URLSearchParams) :
  filtersFromSearchParams (ps1 ++ ps2)
  = filtersFromSearchParams ps1 ++ filtersFromSearchParams ps2.
Proof.
  unfold filtersFromSearchParams. rewrite foldl_app.
  generalize (foldl (λ (selectedFacets : list SelectedFacet) '(name, value),
                       match split "." name with
                       | filter :: key :: _ =>
                           if String.eqb filter "filter"
                           then selectedFacets ++ [ {| key := key; value := value |} ]
                           else selectedFacets
                       | _ => selectedFacets
                       end) [] ps1) as acc.
  intros acc. revert acc.
  match goal with
  | |- ∀ acc, foldl ?step acc ps2 = acc ++ foldl ?step [] ps2 =>
      enough (∀ acc front, foldl step (front ++ acc) ps2
                           = front ++ foldl step acc ps2) as Hgen
  end.
  { intros acc. rewrite <-(Hgen [] acc). by rewrite app_nil_r. }
  induction ps2 as [|[name v] ps2 IH]; intros acc front; [done|].
  cbn [foldl]. destruct (split "." name) as [|filter [|k rest]]; [apply IH..|].
  destruct (String.eqb filter "filter"); [|apply IH].
  by rewrite <-app_assoc, IH.
Qed.

Lemma filtersFromSearchParams_filter (k v : string) :
  filtersFromSearchParams [("filter." +:+ k, v)]
  = [ {| key := key_stem k; value := v |} ].
Proof.
  unfold filtersFromSearchParams, key_stem. cbn [foldl].
  rewrite split_filter_prefix.
  by destruct (split_cons_inv "." k) as (w & ws & ->).
Qed.

Lemma filtersFromSearchParams_other (name v : string) :
  startsWith "filter." name = false →
  filtersFromSearchParams [(name, v)] = [].
Proof.
  intros Hname. unfold filtersFromSearchParams. cbn [foldl].
  destruct (split "." name) as [|filter [|k rest]] eqn:Hsplit; [done..|].
  destruct (String.eqb_spec filter "filter") as [->|]; [|done].
  exfalso. rewrite <-(join_split "." name), Hsplit in Hname.
  destruct rest; discriminate.
Qed.

Lemma filters_read_back (fs : list SelectedFacet) :
  filtersFromSearchParams (filtersToSearchParams fs)
  = (λ f, {| key := key_stem (key f); value := value f |}) <$> fs.
Proof.
  rewrite filtersToSearchParams_fmap.
  induction fs as [|f fs IH]; [done|]. rewrite !fmap_cons.
  change (?x :: ?l) with ([x] ++ l) at 1.
  by rewrite filtersFromSearchParams_app, filtersFromSearchParams_filter, IH.
Qed.

Lemma key_stem_without_dot (k : string) : includes "." k = false → key_stem k = k.
Proof. intros Hk. unfold key_stem. by rewrite split_without_separator. Qed.

Lemma filters_read_back_exact (fs : list SelectedFacet) :
  Forall (λ f, includes "." (key f) = false) fs →
  filtersFromSearchParams (filtersToSearchParams fs) = fs.
Proof.
  intros Hfs. rewrite filters_read_back.
  rewrite <-(list_fmap_id fs) at 2. apply Forall_fmap_ext_1.
  eapply Forall_impl; [done|]. intros [k v] Hk. simpl in *.
  by rewrite key_stem_without_dot.
Qed.

(** X8.  Without any condition on the keys, reading back the search
    parameters written for a list of selected facets gives one facet per
    facet, in the same order and with the same value; a key comes back
    cut in front of its first dot, so that a facet whose key has a dot
    does not come back as it was. *)
Theorem filters_roundtrip_stem (fs : list SelectedFacet) :
  filtersFromSearchParams (filtersToSearchParams fs)
  = (λ f, {| key := key_stem (key f); value := value f |}) <$> fs
  ∧ (∀ i f, fs !! i = Some f → includes "." (key f) = true →
       filtersFromSearchParams (filtersToSearchParams fs) !! i ≠ Some f).
Proof.
  split; [apply filters_read_back|].
  intros i [k v] Hi Hdot. rewrite filters_read_back, list_lookup_fmap, Hi. simpl.
  intros [= Hstem]. unfold key_stem in Hstem.
  destruct (split_cons_inv "." k) as (w & ws & Hsplit).
  rewrite Hsplit in Hstem. simpl in Hstem, Hdot. subst w.
  assert (includes "." k = false) as Hno; [|congruence].
  clear Hdot Hi. revert ws Hsplit. induction k as [|c k IH]; intros ws; [done|].
  simpl. destruct (Ascii.eqb c ".") eqn:Hc; [by intros [= ?]|].
  destruct (split_cons_inv "." k) as (w' & ws' & Hk). rewrite Hk.
  intros [= -> ->]. simpl. by eapply IH.
Qed.

(** X9.  [filtersFromSearchParams] reads the parameters whose name
    starts with [filter.] and no other: a parameter of another name is
    skipped wherever it stands, and a parameter [filter.k] gives the
    facet of key [k] (cut in front of its first dot) at its place. *)
Theorem filtersFromSearchParams_reads_filters ps1 ps2 name v :
  (startsWith "filter." name = false →
   filtersFromSearchParams (ps1 ++ (name, v) :: ps2)
   = filtersFromSearchParams (ps1 ++ ps2))
  ∧ (∀ k, name = "filter." +:+ k →
       filtersFromSearchParams (ps1 ++ (name, v) :: ps2)
       = filtersFromSearchParams ps1
         ++ {| key := key_stem k; value := v |} :: filtersFromSearchParams ps2).
Proof.
  change ((name, v) :: ps2) with ([(name, v)] ++ ps2).
  rewrite !filtersFromSearchParams_app. split.
  - intros Hname. by rewrite filtersFromSearchParams_other.
  - intros k ->. by rewrite filtersFromSearchParams_filter.
Qed.

(* ===================================================================== *)
(** ** The query string of a list of search parameters *)
(* ===================================================================== *)

Lemma urlencode_byte_no_equals (c : ascii) :
  includes "=" (urlencode_byte c) = false.
Proof. destruct c as [[] [] [] [] [] [] [] []]; reflexivity. Qed.

Lemma urlencode_no_equals (s : string) : includes "=" (urlencode s) = false.
Proof.
  induction s as [|c s IH]; [done|].
  cbn [urlencode]. by rewrite includes_app, urlencode_byte_no_equals, IH.
Qed.

Lemma split_pair_app (a b : string) :
  includes "=" a = false → split_pair (a +:+ String "=" b) = (a, b).
Proof.
  induction a as [|c a IH]; simpl; [done|].
  intros [Hc Ha]%orb_false_iff. by rewrite Hc, IH.
Qed.

Lemma split_join (sep : ascii) (xs : list string) :
  xs ≠ [] → Forall (λ x, includes sep x = false) xs →
  split sep (join (String sep "") xs) = xs.
Proof.
  intros Hne Hxs. induction Hxs as [|x xs Hx Hxs IH]; [done|].
  destruct xs as [|x' xs]; [by apply split_without_separator|].
  rewrite join_cons_cons.
  change (x +:+ String sep "" +:+ join (String sep "") (x' :: xs))
    with (x +:+ String sep (join (String sep "") (x' :: xs))).
  rewrite split_app_separator by done. by rewrite IH.
Qed.

(** Parsing the query string written for a list of search parameters
    gives the list back. *)
Lemma params_parse_toString (ps : URLSearchParams) :
  params_parse ("?" +:+ params_toString ps) = ps.
Proof.
  unfold params_parse, params_toString.
  change ("?" +:+ ?q) with (String "?" q). cbv iota beta.
  destruct ps as [|p ps]; [done|].
  rewrite split_join.
  - assert (∀ qs : URLSearchParams,
              filter_Boolean ((λ p, urlencode p.1 +:+ "=" +:+ urlencode p.2) <$> qs)
              = (λ p, urlencode p.1 +:+ "=" +:+ urlencode p.2) <$> qs) as ->.
    { induction qs as [|[n v] qs IH]; [done|]. rewrite fmap_cons.
      unfold filter_Boolean in *. cbn [List.filter fst snd].
      replace (truthy (urlencode n +:+ "=" +:+ urlencode v)) with true.
      - by rewrite IH.
      - symmetry. apply truthy_nonempty, append_nonempty. }
    rewrite <-list_fmap_compose.
    rewrite <-(list_fmap_id (p :: ps)) at 2. apply list_fmap_ext.
    intros _ [n v] _. simpl.
    change (urlencode n +:+ "=" +:+ urlencode v)
      with (urlencode n +:+ String "=" (urlencode v)).
    rewrite split_pair_app by apply urlencode_no_equals.
    by rewrite !urldecode_urlencode.
  - done.
  - apply Forall_fmap, Forall_forall. intros [n v] _. simpl.
    rewrite !includes_app, !urlencode_reserved. done.
Qed.

(* ===================================================================== *)
(** ** Filters of intelligent search *)
(* ===================================================================== *)

Lemma num_lt_spec (a b : number) : num_lt a b = true ↔ (a < b)%Q.
Proof.
  unfold num_lt. rewrite negb_true_iff. split.
  - intros Hle. apply Qnot_le_lt. intros Hba. apply Qle_bool_iff in Hba. congruence.
  - intros Hlt. apply not_true_is_false. intros Hba. apply Qle_bool_iff in Hba. lra.
Qed.

Lemma num_lt_false (a b : number) : num_lt a b = false ↔ (b <= a)%Q.
Proof.
  unfold num_lt. rewrite negb_false_iff. apply Qle_bool_iff.
Qed.

(** The two [reduce] calls of the price range. *)
Lemma reduce_min (values : list FacetValueRange) (m : number) (seen : list number) :
  minimum_of m seen →
  ∃ m', foldl (λ acc curr, if bound_gt acc (range_from curr)
                           then Finite (range_from curr) else acc)
              (Finite m) values = Finite m'
        ∧ minimum_of m' (seen ++ (range_from <$> values)).
Proof.
  revert m seen. induction values as [|v values IH]; intros m seen [Hin Hmin].
  - exists m. by rewrite app_nil_r.
  - cbn [foldl bound_gt]. rewrite fmap_cons, cons_middle, app_assoc.
    destruct (num_lt (range_from v) m) eqn:Hlt.
    + apply num_lt_spec in Hlt. apply IH. split.
      * apply elem_of_app. right. apply list_elem_of_here.
      * apply Forall_app. split; [|by repeat constructor; apply Qle_refl].
        eapply Forall_impl; [done|]. intros x Hx. simpl in *. lra.
    + apply num_lt_false in Hlt. apply IH. split.
      * apply elem_of_app. by left.
      * apply Forall_app. split; [done|]. by repeat constructor.
Qed.

Lemma reduce_max (values : list FacetValueRange) (m : number) (seen : list number) :
  maximum_of m seen →
  maximum_of (foldl (λ acc curr, if num_lt acc (range_to curr)
                                 then range_to curr else acc) m values)
             (seen ++ (range_to <$> values)).
Proof.
  revert m seen. induction values as [|v values IH]; intros m seen [Hin Hmax].
  - by rewrite app_nil_r.
  - cbn [foldl]. rewrite fmap_cons, cons_middle, app_assoc.
    destruct (num_lt m (range_to v)) eqn:Hlt.
    + apply num_lt_spec in Hlt. apply IH. split.
      * apply elem_of_app. right. apply list_elem_of_here.
      * apply Forall_app. split; [|by repeat constructor; apply Qle_refl].
        eapply Forall_impl; [done|]. intros x Hx. simpl in *. lra.
    + apply num_lt_false in Hlt. apply IH. split.
      * apply elem_of_app. by left.
      * apply Forall_app. split; [done|]. by repeat constructor.
Qed.

(** X10.  For a visible facet of price ranges, [toFilter] returns a
    range filter under the name and key of the facet.  Its [min] is the
    least [range.from] of the values, and [Infinity] when there is no
    value; its [max] is the greatest [range.to] of the values, but never
    below zero: it is zero when there is no value or when every
    [range.to] is negative. *)
Theorem toFilter_price_range name k values selectedFacets :
  ∃ r,
    toFilter (PriceRangeFacet false name k values) selectedFacets
    = Ok (Some (Range r))
    ∧ range_label r = name ∧ range_key r = k
    ∧ (values = [] → range_min r = Infinity)
    ∧ (values ≠ [] →
       ∃ m, range_min r = Finite m ∧ minimum_of m (range_from <$> values))
    ∧ maximum_of (range_max r) (0%Q :: (range_to <$> values)).
Proof.
  eexists. split; [reflexivity|]. simpl.
  split; [done|]. split; [done|]. split; [by intros ->|]. split.
  - destruct values as [|v values]; [done|]. intros _. cbn [foldl bound_gt].
    apply (reduce_min values (range_from v) [range_from v]).
    split; [apply list_elem_of_here|]. repeat constructor. apply Qle_refl.
  - apply (reduce_max values 0%Q [0%Q]).
    split; [apply list_elem_of_here|]. repeat constructor. apply Qle_refl.
Qed.

(** The links of a filter of boolean values: each value links to the
    query string of its toggled filters. *)
Lemma toFilter_toggle facet selectedFacets :
  facet_hidden facet = false → facet_type facet ≠ "PRICERANGE" →
  ∃ t,
    toFilter facet selectedFacets = Ok (Some (Toggle t))
    ∧ Forall2
        (λ v toggle,
           toggle_value toggle = boolean_value v
           ∧ selected toggle = boolean_selected v
           ∧ filtersFromSearchParams (params_parse (toggle_url toggle))
             = (λ f, {| key := key_stem (key f); value := value f |})
                 <$> toggled_filters (facet_key facet) v selectedFacets)
        (boolean_values facet) (filter_values t).
Proof.
  intros Hhidden Htype. unfold toFilter. rewrite Hhidden.
  apply String.eqb_neq in Htype. rewrite Htype.
  eexists. split; [reflexivity|]. simpl.
  apply Forall2_fmap_r, Forall_Forall2_diag, Forall_forall. intros v _. simpl.
  split; [done|]. split; [done|].
  by rewrite params_parse_toString, filters_read_back.
Qed.

(** X11.  The link of a value that is not selected selects it: read
    back with [filtersFromSearchParams], its query string is the list of
    the selected facets followed by the facet of the value (the keys
    having no dot). *)
Theorem toFilter_link_selects facet selectedFacets :
  facet_hidden facet = false → facet_type facet ≠ "PRICERANGE" →
  includes "." (facet_key facet) = false →
  Forall (λ f, includes "." (key f) = false) selectedFacets →
  ∃ t,
    toFilter facet selectedFacets = Ok (Some (Toggle t))
    ∧ Forall2
        (λ v toggle,
           boolean_selected v = false →
           filtersFromSearchParams (params_parse (toggle_url toggle))
           = selectedFacets
             ++ [ {| key := facet_key facet; value := boolean_value v |} ])
        (boolean_values facet) (filter_values t).
Proof.
  intros Hhidden Htype Hkey Hkeys.
  destruct (toFilter_toggle facet selectedFacets Hhidden Htype) as (t & Ht & Hlinks).
  exists t. split; [done|].
  eapply Forall2_impl; [done|]. intros v toggle (_ & _ & ->) Hv.
  unfold toggled_filters. rewrite Hv, fmap_app. simpl.
  rewrite key_stem_without_dot by done. f_equal.
  rewrite <-(list_fmap_id selectedFacets) at 2. apply Forall_fmap_ext_1.
  eapply Forall_impl; [done|]. intros [k' v'] Hk. simpl in *.
  by rewrite key_stem_without_dot.
Qed.

(** X12.  The link of a selected value keeps, in their order, the
    selected facets that differ from the value both in key and in value:
    the facet of the value is gone, and so is every other selected facet
    under the key of the facet or with the value of the value (the keys
    having no dot). *)
Theorem toFilter_link_deselects facet selectedFacets :
  facet_hidden facet = false → facet_type facet ≠ "PRICERANGE" →
  Forall (λ f, includes "." (key f) = false) selectedFacets →
  ∃ t,
    toFilter facet selectedFacets = Ok (Some (Toggle t))
    ∧ Forall2
        (λ v toggle,
           boolean_selected v = true →
           let kept := filtersFromSearchParams (params_parse (toggle_url toggle)) in
           kept `sublist_of` selectedFacets
           ∧ ∀ f, f ∈ kept ↔ f ∈ selectedFacets
                             ∧ key f ≠ facet_key facet
                             ∧ value f ≠ boolean_value v)
        (boolean_values facet) (filter_values t).
Proof.
  intros Hhidden Htype Hkeys.
  destruct (toFilter_toggle facet selectedFacets Hhidden Htype) as (t & Ht & Hlinks).
  exists t. split; [done|].
  eapply Forall2_impl; [done|]. intros v toggle (_ & _ & ->) Hv.
  unfold toggled_filters. rewrite Hv. cbn [key value].
  set (keep := λ f : SelectedFacet,
         negb (String.eqb (key f) (facet_key facet))
         && negb (String.eqb (value f) (boolean_value v))).
  assert ((λ f, {| key := key_stem (key f); value := value f |})
            <$> List.filter keep selectedFacets
          = List.filter keep selectedFacets) as ->.
  { rewrite <-(list_fmap_id (List.filter keep selectedFacets)) at 2.
    apply Forall_fmap_ext_1, Forall_forall. intros [k' v'] Hin.
    apply list_elem_of_In, filter_In in Hin as [Hin _].
    apply list_elem_of_In in Hin. rewrite Forall_forall in Hkeys.
    specialize (Hkeys _ Hin). simpl in *. by rewrite key_stem_without_dot. }
  split.
  - clear. induction selectedFacets as [|f fs IH]; simpl; [done|].
    destruct (keep f); [by apply sublist_skip|by apply sublist_cons].
  - intros f. rewrite list_elem_of_In, filter_In, <-list_elem_of_In.
    unfold keep. rewrite andb_true_iff, !negb_true_iff.
    by rewrite !String.eqb_neq.
Qed.

(* ===================================================================== *)
(** ** The navigation bar *)
(* ===================================================================== *)

(** Induction on a category with its children. *)
Lemma Category_children_ind (P : Category → Prop) :
  (∀ name url children, Forall P children → P (mkCategory name url children)) →
  ∀ node, P node.
Proof.
  intros Hnode. fix IH 1. intros [name url children]. apply Hnode.
  induction children as [|child children IHchildren]; constructor; [apply IH|done].
Qed.

Section NavbarProperties.
Context `{URLParser}.

Lemma nodeToNavbar_unfold (node : Category) :
  nodeToNavbar node
  = URL_parse (category_url node) "https://example.com" ≫= λ url,
    Array_mapM nodeToNavbar (category_children node) ≫= λ children,
    Ok {| navbar_href := pathname url +:+ search url;
          navbar_label := category_name node;
          navbar_children := children |}.
Proof. by destruct node. Qed.

Lemma nodeToNavbar_shape (node : Category) (entry : Navbar) :
  nodeToNavbar node = Ok entry → navbar_shape entry = category_shape node.
Proof.
  revert entry. induction node as [name url children IH] using Category_children_ind.
  intros entry. rewrite nodeToNavbar_unfold. simpl.
  intros (u & _ & Hentry)%bind_Ok.
  apply bind_Ok in Hentry as (entries & Hentries & [= <-]). simpl. f_equal.
  apply Array_mapM_Ok in Hentries.
  induction Hentries as [|child entry children entries Hchild _ IHentries]; [done|].
  apply Forall_cons in IH as [IHchild IH]. rewrite !fmap_cons.
  by rewrite (IHchild _ Hchild), IHentries.
Qed.

Lemma nodeToNavbar_returns (node : Category) :
  returns (nodeToNavbar node)
  ↔ Forall (λ url, returns (URL_parse url "https://example.com"))
           (category_urls node).
Proof.
  induction node as [name url children IH] using Category_children_ind.
  rewrite nodeToNavbar_unfold. simpl.
  rewrite Forall_cons.
  assert (returns (Array_mapM nodeToNavbar children)
          ↔ Forall (λ url, returns (URL_parse url "https://example.com"))
                   (mjoin (category_urls <$> children))) as Hchildren.
  { induction IH as [|child children Hchild _ IHchildren].
    - split; [constructor|by eexists].
    - rewrite Array_mapM_cons, fmap_cons. simpl.
      change (foldr app [] (category_urls <$> children))
        with (mjoin (category_urls <$> children)).
      rewrite Forall_app, <-Hchild, <-IHchildren. split.
      + intros [entries (entry & Hentry & Hrest)%bind_Ok].
        apply bind_Ok in Hrest as (rest & Hrest & _).
        split; by eexists.
      + intros [[entry ->] [rest ->]]. by eexists. }
  rewrite <-Hchildren. split.
  - intros [entry (u & Hu & Hrest)%bind_Ok].
    apply bind_Ok in Hrest as (entries & Hentries & _). split; by eexists.
  - intros [[u ->] [entries ->]]. by eexists.
Qed.

(** X13.  [categoryTreeToNavbar] returns exactly when the URL parser
    accepts the URL of every category of the tree, at every depth; the
    navigation bar it returns has the shape and the labels of the tree. *)
Theorem categoryTreeToNavbar_mirrors (tree : list Category) :
  (returns (categoryTreeToNavbar tree)
   ↔ Forall (λ url, returns (URL_parse url "https://example.com"))
            (mjoin (category_urls <$> tree)))
  ∧ (∀ navbar, categoryTreeToNavbar tree = Ok navbar →
               navbar_shape <$> navbar = category_shape <$> tree).
Proof.
  unfold categoryTreeToNavbar. split.
  - induction tree as [|node tree IH].
    + split; [constructor|by eexists].
    + rewrite Array_mapM_cons, fmap_cons. simpl.
      change (foldr app [] (category_urls <$> tree))
        with (mjoin (category_urls <$> tree)).
      rewrite Forall_app, <-nodeToNavbar_returns, <-IH. split.
      * intros [entries (entry & Hentry & Hrest)%bind_Ok].
        apply bind_Ok in Hrest as (rest & Hrest & _).
        split; by eexists.
      * intros [[entry ->] [rest ->]]. by eexists.
  - intros navbar Hnavbar. apply Array_mapM_Ok in Hnavbar.
    induction Hnavbar as [|node entry tree navbar Hentry _ IH]; [done|].
    rewrite !fmap_cons. by rewrite (nodeToNavbar_shape _ _ Hentry), IH.
Qed.

End NavbarProperties.

(* ===================================================================== *)
(** ** The cart *)
(* ===================================================================== *)

Lemma append_empty_r (s : string) : s +:+ "" = s.
Proof. induction s as [|c s IH]; [done|]. by rewrite <-IH at 2. Qed.

Section CartProperties.
Import Cart.
Context {Server : Type} `{Platform Server}.

Ltac run_call :=
  unfold call, withPQueue, withCart, withLoading, removeAllItems,
    removeAllPersonalData, updateItems, addItems, changePrice, ignoreProfileData,
    getCartInstallments, addCouponsToCart, getCart, and_then, cart_orderFormId,
    fetch_cart; simpl.

Ltac settle := unfold set_queue, set_loading, set_cart, set_server; simpl.

(** X14.  A method of the cart other than the refresh, called while the
    cart is still [null], is rejected with the error [Missing cart]: no
    request is sent, the cart stays [null] and [loading] keeps its value.
    The rejection stays at the tail of the queue. *)
Theorem call_missing_cart (method : Method) (st : State Server) :
  method ≠ Refresh → queue st = None → cart st = None →
  call method st
  = (Rejected (Error "Missing cart"),
     {| cart := None; loading := loading st;
        queue := Some (Error "Missing cart"); server := server st |}).
Proof.
  intros Hmethod Hqueue Hcart.
  destruct method; try done; run_call; rewrite Hqueue, Hcart; settle;
    by rewrite Hcart.
Qed.

(** X15.  A method called on a settled, healthy queue (with a cart, or
    the refresh) sends exactly one request.  When the request succeeds
    the answer becomes the cart; when it fails the cart is kept and the
    error is the rejection of the call and the new tail of the queue.
    Either way [loading] is [false] afterwards.  The refresh asks for
    [/api/checkout/pub/orderForm]; the URL of every other request holds
    the id of the current cart. *)
Theorem call_settles (method : Method) (st : State Server) (form : OrderForm) :
  queue st = None →
  (method = Refresh ∨ cart st = Some form) →
  ∃ request,
    call method st
    = match fetchAPI request (server st) with
      | (Fulfilled answer, s) =>
          (Fulfilled (),
           {| cart := Some answer; loading := false; queue := None; server := s |})
      | (Rejected reason, s) =>
          (Rejected reason,
           {| cart := cart st; loading := false; queue := Some reason;
              server := s |})
      end
    ∧ (method = Refresh → request_url request = "/api/checkout/pub/orderForm")
    ∧ (method ≠ Refresh →
       ∃ front back,
         request_url request = front +:+ orderFormId form +:+ back).
Proof.
  intros Hqueue Hcart.
  destruct method; (destruct Hcart as [Hrefresh|Hcart]; [try done|]);
    run_call; rewrite Hqueue; rewrite ?Hcart; simpl;
    match goal with
    | |- context [fetchAPI ?request _] => exists request
    end;
    (split; [by destruct (fetchAPI _ _) as [[answer|reason] s]; settle;
                rewrite ?Hcart|]);
    (split; [done|]); try (by intros []); intros _; simpl.
  - by exists "/api/checkout/pub/orderForm/", "/items/removeAll".
  - exists "/checkout/changeToAnonymousUser/", "". by rewrite append_empty_r.
  - by eexists "/api/checkout/pub/orderForm/", _.
  - by eexists "/api/checkout/pub/orderForm/", _.
  - by eexists "/api/checkout/pub/orderForm/", _.
  - by exists "/api/checkout/pub/orderForm/", "/profile".
  - by eexists "/api/checkout/pub/orderForm/", _.
  - by exists "/api/checkout/pub/orderForm/", "/coupons".
Qed.

Lemma call_rejected_queue (method : Method) (st : State Server) (reason : error) :
  queue st = Some reason → call method st = (Rejected reason, st).
Proof. intros Hqueue. destruct method; run_call; by rewrite Hqueue. Qed.

(** X16.  Once a call has been rejected, the queue stays rejected: every
    later call, of any method, is rejected with the same reason without
    running; no request is sent, and the cart, [loading] and the queue
    stay as they are, however many calls follow. *)
Theorem call_after_rejection (methods : list Method) (st : State Server)
    (reason : error) :
  queue st = Some reason →
  (∀ method, call method st = (Rejected reason, st))
  ∧ after_calls methods st = st.
Proof.
  intros Hqueue. split; [intros method; by apply call_rejected_queue|].
  unfold after_calls. induction methods as [|method methods IH]; [done|].
  cbn [foldl]. by rewrite (call_rejected_queue method st reason Hqueue).
Qed.

Lemma call_loading (method : Method) (st : State Server) :
  loading st = false → loading (call method st).2 = false.
Proof.
  intros Hloading. destruct (queue st) as [reason|] eqn:Hqueue.
  { by rewrite (call_rejected_queue _ _ reason). }
  destruct method; run_call; rewrite Hqueue;
    try (destruct (cart st) as [form|] eqn:Hcart; simpl; [|done]);
    by destruct (fetchAPI _ _) as [[answer|e] s].
Qed.

(** X17.  [loading] is [false] between calls: whatever methods are
    called from a state in which it is [false], in whatever state of the
    cart and of the queue and whatever the server answers, it is [false]
    again after them. *)
Theorem after_calls_loading (methods : list Method) (st : State Server) :
  loading st = false → loading (after_calls methods st) = false.
Proof.
  unfold after_calls. revert st.
  induction methods as [|method methods IH]; intros st Hloading; [done|].
  cbn [foldl]. by apply IH, call_loading.
Qed.

End CartProperties.

(* ===================================================================== *)
(** ** Further properties: comparator, legacy specifications, mutation *)
(* ===================================================================== *)

(** X18.  [bestOfferFirst] is a comparator [Array.prototype.sort] can
    rely on: swapping its arguments swaps the sign of its result, it
    returns zero exactly on two offers of the same availability and of
    equal price, and the order it induces is transitive. *)
Theorem bestOfferFirst_sign (a b c : Offer) :
  ((bestOfferFirst a b < 0)%Q ↔ (0 < bestOfferFirst b a)%Q)
  ∧ ((bestOfferFirst a b == 0)%Q
     ↔ inStock a = inStock b ∧ (price a == price b)%Q)
  ∧ ((bestOfferFirst a b <= 0)%Q → (bestOfferFirst b c <= 0)%Q →
     (bestOfferFirst a c <= 0)%Q).
Proof.
  unfold bestOfferFirst.
  destruct (inStock a), (inStock b), (inStock c); simpl;
    (split; [|split]);
    try (split; intros; lra);
    try (intros; lra);
    try (split; [intros Hq; exfalso; revert Hq; by vm_compute
                |intros [[=] _]]);
    try (split; [intros Hq; split; [done|lra]|intros [_ Hq]; lra]).
Qed.



Section Mutation.
Context `{URLStandard} `{Slugify}.

(** The category of a returned product is made of the segments of the
    first category path that [toProduct] finds in the product object. *)
Lemma toProduct_body_category self vendor item level options p :
  toProduct_body self vendor item level options = Ok p →
  ∃ path, head (categories vendor) = Some path
          ∧ category p = join ">" (filter_Boolean (split "/" path)).
Proof.
  unfold toProduct_body. intros Hp.
  apply bind_Ok in Hp as (gp & _ & Hp).
  apply bind_Ok in Hp as (sp & _ & Hp).
  apply bind_Ok in Hp as (vs & _ & Hp).
  apply bind_Ok in Hp as (cs & Hcs & Hp).
  apply bind_Ok in Hp as (cp & _ & Hp).
  apply bind_Ok in Hp as (pu & _ & Hp).
  apply bind_Ok in Hp as (gu & _ & [= <-]). cbn [category].
  rewrite head_lookup. destruct (categories vendor !! 0) as [path|]; [|done].
  exists path. split; [done|]. by injection Hcs as <-.
Qed.

Lemma toProductPage_page vendor maybeSkuId options page :
  (toProductPage vendor maybeSkuId options).1 = Ok page →
  (∃ path, last (categories vendor) = Some path
           ∧ category (product page) = join ">" (filter_Boolean (split "/" path)))
  ∧ categories (toProductPage vendor maybeSkuId options).2
    = reverse (categories vendor).
Proof.
  rewrite toProductPage_unfold.
  destruct (List.find _ _) as [item|] eqn:Hfind; cbn [fst snd]; [|done].
  intros Hpage. apply bind_Ok in Hpage as (b & _ & Hpage).
  apply bind_Ok in Hpage as (p & Hp & [= <-]). cbn [product].
  split; [|done].
  apply toProduct_body_category in Hp as (path & Hpath & Hcategory).
  exists path. split; [|done].
  by rewrite <-head_reverse.
Qed.

(** X20.  [toProductPage] reverses the categories of the product object
    it is given before [toProduct] reads them, and its caller observes
    it.  The [category] of the product of a returned page is made of the
    segments of the last category path of the product, where a direct
    call of [toProduct] uses the first; the product object is left with
    its categories in reverse order; and a second call on the same
    object returns a page whose category is made of the first path. *)
Theorem toProductPage_mutation vendor maybeSkuId options page :
  (toProductPage vendor maybeSkuId options).1 = Ok page →
  let after := (toProductPage vendor maybeSkuId options).2 in
  (∃ path, last (categories vendor) = Some path
           ∧ category (product page) = join ">" (filter_Boolean (split "/" path)))
  ∧ (∀ item level p,
       toProduct vendor item level options = Ok p →
       ∃ path, head (categories vendor) = Some path
               ∧ category p = join ">" (filter_Boolean (split "/" path)))
  ∧ categories after = reverse (categories vendor)
  ∧ (∀ again,
       (toProductPage after maybeSkuId options).1 = Ok again →
       ∃ path, head (categories vendor) = Some path
               ∧ category (product again)
                 = join ">" (filter_Boolean (split "/" path))).
Proof.
  intros Hpage after.
  destruct (toProductPage_page _ _ _ _ Hpage) as [Hlast Hafter].
  split; [done|]. split; [|split; [done|]].
  - intros item level p Hp. by eapply toProduct_body_category.
  - intros again Hagain.
    destruct (toProductPage_page _ _ _ _ Hagain) as [(path & Hpath & Hcategory) _].
    exists path. split; [|done].
    fold after in Hafter. by rewrite Hafter, last_reverse in Hpath.
Qed.

End Mutation.

Section LegacyFacets.
Context `{URLStandard}.

(** X21.  A filter returned by [legacyFacetToFilter] counts the facets
    and has one toggle per facet, in order, with the value, the label and
    the quantity of its facet.  A toggle is selected exactly when the
    [Map] of its facet is one of the comma-separated segments of [map]
    and its [Value] is one of the first [n + 1] slash-separated segments
    of the pathname, [n] being the number of distinct segments of [map].
    The url of a toggle that is not selected is the [LinkEncoded] of its
    facet; when [map] has a single segment, the url of a selected toggle
    is the current path and query, and the filter is returned whatever
    the facets are. *)
Theorem legacyFacetToFilter_selected name facets url map :
  let mapSegments := split "," map in
  let pathSegments :=
    take (size (list_to_set mapSegments : gset string) + 1)
         (split "/" (pathname url)) in
  (length mapSegments = 1 → returns (legacyFacetToFilter name facets url map))
  ∧ (∀ filter,
       legacyFacetToFilter name facets url map = Ok filter →
       filter_quantity filter = length facets
       ∧ filter_label filter = name
       ∧ filter_key filter = name
       ∧ Forall2
           (λ facet toggle,
              toggle_value toggle = Value facet
              ∧ toggle_label toggle = Name facet
              ∧ toggle_quantity toggle = Quantity facet
              ∧ (selected toggle = true
                 ↔ Map facet ∈ mapSegments ∧ Value facet ∈ pathSegments)
              ∧ (selected toggle = false → toggle_url toggle = LinkEncoded facet)
              ∧ (selected toggle = true → length mapSegments = 1 →
                 toggle_url toggle = pathname url +:+ search url))
           facets (filter_values filter)).
Proof.
  intros mapSegments pathSegments. split.
  - intros Hone. unfold legacyFacetToFilter.
    apply returns_bind; [|by eexists]. apply returns_Array_mapM.
    apply Forall_forall. intros facet _. apply returns_bind; [|by eexists].
    destruct (_ && _); [|by eexists]. rewrite unselect_single by done. by eexists.
  - intros filter Hfilter.
    apply legacyFacetToFilter_Ok in Hfilter as (Hquantity & Hlabel & Hkey & Hvalues).
    split; [done|]. split; [done|]. split; [done|].
    eapply Forall2_impl; [exact Hvalues|]. intros facet toggle. cbv zeta.
    fold mapSegments. fold pathSegments. intros [Hurl Htoggle].
    assert (bool_decide (Map facet ∈ (list_to_set mapSegments : gset string))
            && bool_decide (Value facet ∈ (list_to_set pathSegments : gset string))
            = true
            ↔ Map facet ∈ mapSegments ∧ Value facet ∈ pathSegments) as Hselected.
    { by rewrite andb_true_iff, !bool_decide_eq_true, !elem_of_list_to_set. }
    rewrite Htoggle. cbn [toggle_value toggle_label toggle_quantity selected
                          toggle_url].
    split; [done|]. split; [done|]. split; [done|]. split; [done|].
    destruct (_ && _) eqn:Hsel.
    + split; [done|]. intros _ Hone.
      rewrite unselect_single in Hurl by done. by injection Hurl.
    + split; [|done]. intros _. by injection Hurl.
Qed.

End LegacyFacets.

(* ===================================================================== *)
(** ** The further statements at work on the samples *)
(* ===================================================================== *)

(** X1 on the legacy sample product: three items, the product last. *)
Lemma toBreadcrumbList_positions_witness :
  ∃ list,
    (toBreadcrumbList (H := Samples.sample_slugify)
                      (H0 := Samples.sample_standard)
                      Samples.legacy_product Samples.request).1 = Ok list
    ∧ item_name <$> itemListElement list
      = [Some "Calcados"; Some "Tenis"; Some "Tenis Azul"].
Proof.
  destruct (toBreadcrumbList (H := Samples.sample_slugify)
                             (H0 := Samples.sample_standard)
                             Samples.legacy_product Samples.request).1
    as [list| |] eqn:Hlist; [|vm_compute in Hlist; discriminate..].
  exists list. split; [done|].
  destruct (toBreadcrumbList_positions
              (H := Samples.sample_standard) (H0 := Samples.sample_slugify)
              Samples.legacy_product Samples.request) as [_ Hitems].
  destruct (Hitems list Hlist) as (_ & _ & _ & ->).
  reflexivity.
Defined.

(** X2 on the legacy sample product: the page of its first item. *)
Lemma toProductPage_requested_variant_witness :
  ∃ page,
    (toProductPage (H := Samples.sample_slugify)
                   (H0 := Samples.sample_standard)
                   Samples.legacy_product None Samples.request).1 = Ok page
    ∧ sku (product page) = "1".
Proof.
  destruct (toProductPage (H := Samples.sample_slugify)
                          (H0 := Samples.sample_standard)
                          Samples.legacy_product None Samples.request).1
    as [page| |] eqn:Hpage; [|vm_compute in Hpage; discriminate..].
  exists page. split; [done|].
  destruct (toProductPage_requested_variant
              (H0 := Samples.sample_slugify) _ _ _ page Hpage) as (Hreq & _).
  by injection Hreq.
Defined.

(** X3 on the offers of the sku with four sellers: the last offer is
    behind the index and out of stock. *)
Lemma getHighPriceIndex_bounds_witness :
  ∃ o, sku_offers Samples.sku_four_sellers !! 3 = Some o ∧ inStock o = false.
Proof.
  destruct (getHighPriceIndex_bounds (sku_offers Samples.sku_four_sellers))
    as (_ & _ & Hbehind & _).
  eexists. split; [vm_compute; reflexivity|].
  eapply (Hbehind 3%Z); [vm_compute; reflexivity|vm_compute; reflexivity].
Defined.

(** X4 on the sku with four sellers. *)
Lemma aggregateOffer_well_formed_witness :
  ∃ p agg,
    toProduct (H0 := Samples.sample_standard) Samples.search_product Samples.sku_four_sellers 1%Z Samples.request
    = Ok p
    ∧ aggregateOffer p = Some agg ∧ offerCount agg = 4.
Proof.
  destruct (toProduct (H0 := Samples.sample_standard) Samples.search_product Samples.sku_four_sellers 1%Z
                      Samples.request) as [p| |] eqn:Hp;
    [|vm_compute in Hp; discriminate..].
  destruct (aggregateOffer_well_formed _ _ _ _ p Hp) as [Hnone Hsome].
  destruct (aggregateOffer p) as [agg|] eqn:Hagg.
  - exists p, agg. split; [done|]. split; [done|].
    by destruct (Hsome agg eq_refl) as (-> & _).
  - by pose proof (proj1 Hnone eq_refl).
Defined.

(** X5 on a sku without images: the placeholder. *)
Lemma toProduct_image_witness :
  ∃ p, toProduct (H0 := Samples.sample_standard) Samples.legacy_product Samples.sku_cheaper_out_of_stock 0%Z
                 Samples.request = Ok p
       ∧ alternateName <$> image p = ["image"].
Proof.
  destruct (toProduct (H0 := Samples.sample_standard) Samples.legacy_product Samples.sku_cheaper_out_of_stock 0%Z
                      Samples.request) as [p| |] eqn:Hp;
    [|vm_compute in Hp; discriminate..].
  exists p. split; [done|].
  destruct (toProduct_image _ _ _ _ p Hp) as (_ & Hdefault & _).
  rewrite Hdefault; [done|by left].
Defined.

(** X6 on the legacy sample product: one variant, the item [1]. *)
Lemma toProduct_hasVariant_witness :
  ∃ p, toProduct (H0 := Samples.sample_standard) Samples.legacy_product Samples.sku_cheaper_out_of_stock 0%Z
                 Samples.request = Ok p
       ∧ sku <$> hasVariant (isVariantOf p) = ["1"].
Proof.
  destruct (toProduct (H0 := Samples.sample_standard) Samples.legacy_product Samples.sku_cheaper_out_of_stock 0%Z
                      Samples.request) as [p| |] eqn:Hp;
    [|vm_compute in Hp; discriminate..].
  exists p. split; [done|].
  destruct (toProduct_hasVariant _ _ _ _ p Hp) as [Htop _].
  by destruct Htop as [-> _].
Defined.

(** X7 on the sample product without categories. *)
Lemma toProduct_needs_categories_witness :
  toProduct (H0 := Samples.sample_standard)
            Samples.uncategorized_product Samples.sku_cheaper_out_of_stock 0%Z
            Samples.request
  = Throw (TypeError "Cannot read properties of undefined (reading 'split')").
Proof.
  destruct (toProduct_needs_categories (H := Samples.sample_standard)
              Samples.uncategorized_product Samples.sku_cheaper_out_of_stock 0%Z
              Samples.request) as (message & -> & Hmessage); [by left|].
  rewrite Hmessage; [done|by eexists|repeat constructor; by eexists].
Defined.

(** X8 on a facet whose key has a dot. *)
Lemma filters_roundtrip_stem_witness :
  filtersFromSearchParams
    (filtersToSearchParams [ {| key := "specs.cor"; value := "azul" |} ]) !! 0
  ≠ Some {| key := "specs.cor"; value := "azul" |}.
Proof.
  destruct (filters_roundtrip_stem [ {| key := "specs.cor"; value := "azul" |} ])
    as [_ Hcut].
  by apply Hcut.
Defined.

(** X9 on a page parameter between two filters. *)
Lemma filtersFromSearchParams_reads_filters_witness :
  filtersFromSearchParams
    ([("filter.cor", "azul")] ++ ("page", "2") :: [("filter.tamanho", "42")])
  = filtersFromSearchParams ([("filter.cor", "azul")] ++ [("filter.tamanho", "42")]).
Proof.
  by apply (filtersFromSearchParams_reads_filters
              [("filter.cor", "azul")] [("filter.tamanho", "42")] "page" "2").
Defined.

(** X10 on the sample price facet: the range from 10. *)
Lemma toFilter_price_range_witness :
  ∃ r m,
    toFilter MoreSamples.price_facet [] = Ok (Some (Range r))
    ∧ range_min r = Finite m
    ∧ minimum_of m [50%Q; 10%Q; 100%Q].
Proof.
  destruct (toFilter_price_range "Preco" "price"
              [ {| range_from := 50%Q; range_to := 100%Q |};
                {| range_from := 10%Q; range_to := 50%Q |};
                {| range_from := 100%Q; range_to := 400%Q |} ] [])
    as (r & Hr & _ & _ & _ & Hmin & _).
  destruct Hmin as (m & Hm & Hmin); [done|].
  by exists r, m.
Defined.

(** X11 on the facet of colours: the link of [preto] adds it to the
    three selected facets. *)
Lemma toFilter_link_selects_witness :
  ∃ t toggle,
    toFilter MoreSamples.colour_facet MoreSamples.selected_facets
    = Ok (Some (Toggle t))
    ∧ filter_values t !! 1 = Some toggle
    ∧ filtersFromSearchParams (params_parse (toggle_url toggle))
      = MoreSamples.selected_facets ++ [ {| key := "cor"; value := "preto" |} ].
Proof.
  destruct (toFilter_link_selects MoreSamples.colour_facet MoreSamples.selected_facets)
    as (t & Ht & Hlinks); [done|done|done|by repeat constructor|].
  apply Forall2_cons_inv_l in Hlinks as (azul & rest & _ & Hlinks & Hvalues).
  apply Forall2_cons_inv_l in Hlinks as (preto & rest' & Hpreto & _ & ->).
  exists t, preto. split; [done|]. split; [by rewrite Hvalues|].
  by apply Hpreto.
Defined.

(** X12 on the facet of colours: the link of the selected [azul] drops
    the facet [cor = verde] as well. *)
Lemma toFilter_link_deselects_witness :
  ∃ t toggle,
    toFilter MoreSamples.colour_facet MoreSamples.selected_facets
    = Ok (Some (Toggle t))
    ∧ filter_values t !! 0 = Some toggle
    ∧ {| key := "cor"; value := "verde" |}
      ∉ filtersFromSearchParams (params_parse (toggle_url toggle)).
Proof.
  destruct (toFilter_link_deselects MoreSamples.colour_facet
                                    MoreSamples.selected_facets)
    as (t & Ht & Hlinks); [done|done|by repeat constructor|].
  apply Forall2_cons_inv_l in Hlinks as (azul & rest & Hazul & _ & Hvalues).
  exists t, azul. split; [done|]. split; [by rewrite Hvalues|].
  destruct (Hazul eq_refl) as [_ Hkept].
  intros Hin. apply Hkept in Hin as (_ & Hkey & _). by apply Hkey.
Defined.

(** X13 on the sample tree, whose URLs are all paths. *)
Lemma categoryTreeToNavbar_mirrors_witness :
  returns (categoryTreeToNavbar (H := MoreSamples.sample_parser)
                                MoreSamples.category_tree).
Proof.
  apply (categoryTreeToNavbar_mirrors (H := MoreSamples.sample_parser)).
  repeat constructor; by eexists.
Defined.

(** X14 on the initial state of the hook: no cart yet. *)
Lemma call_missing_cart_witness :
  (Cart.call (H := MoreSamples.sample_platform) Cart.RemoveAllItems
             (Cart.initial 0)).1
  = Cart.Rejected (Error "Missing cart").
Proof.
  by rewrite (call_missing_cart (H := MoreSamples.sample_platform)
                                Cart.RemoveAllItems (Cart.initial 0)).
Defined.

(** X15 on a loaded cart: the first request of the sample server
    succeeds and [loading] ends [false]. *)
Lemma call_settles_witness :
  Cart.loading (Cart.call (H := MoreSamples.sample_platform)
                          (Cart.AddCouponsToCart "PROMO")
                          MoreSamples.loaded_cart).2
  = false.
Proof.
  destruct (call_settles (H := MoreSamples.sample_platform)
              (Cart.AddCouponsToCart "PROMO") MoreSamples.loaded_cart
              {| Cart.orderFormId := "of-0"; Cart.orderForm_document := "{}" |})
    as (request & -> & _); [done|by right|].
  by destruct (Cart.fetchAPI request _) as [[answer|reason] s].
Defined.

(** X16 on a rejected queue: three calls change nothing. *)
Lemma call_after_rejection_witness :
  Cart.after_calls (H := MoreSamples.sample_platform)
                   [Cart.Refresh; Cart.RemoveAllItems; Cart.Refresh]
                   MoreSamples.rejected_cart
  = MoreSamples.rejected_cart.
Proof.
  by apply (call_after_rejection (H := MoreSamples.sample_platform)
              _ MoreSamples.rejected_cart (Error "503")).
Defined.

(** X17 on a loaded cart: two refreshes, the second of which fails. *)
Lemma after_calls_loading_witness :
  Cart.loading (Cart.after_calls (H := MoreSamples.sample_platform)
                                 [Cart.Refresh; Cart.Refresh]
                                 MoreSamples.loaded_cart)
  = false.
Proof. by apply (after_calls_loading (H := MoreSamples.sample_platform)). Defined.

(** X18 on three sample offers: in stock at 20, in stock at 30, out of
    stock at 5. *)
Lemma bestOfferFirst_sign_witness :
  (bestOfferFirst (toOffer (Samples.seller "c" None 20%Q 2%Q))
                  (toOffer (Samples.seller "b" None 5%Q 0%Q)) <= 0)%Q.
Proof.
  apply (bestOfferFirst_sign (toOffer (Samples.seller "c" None 20%Q 2%Q))
                             (toOffer (Samples.seller "a" None 30%Q 1%Q))
                             (toOffer (Samples.seller "b" None 5%Q 0%Q)));
    by vm_compute.
Defined.


(** X21 on a listing filtered by colour: the toggle of [azul] is
    selected. *)
Lemma legacyFacetToFilter_selected_witness :
  ∃ filter,
    legacyFacetToFilter (H0 := Samples.sample_standard)
      "Cor" [Samples.facet "specificationFilter_1" "azul"]
      Samples.listing_url "c,specificationFilter_1" = Ok filter
    ∧ selected <$> filter_values filter = [true].
Proof.
  destruct (legacyFacetToFilter (H0 := Samples.sample_standard)
              "Cor" [Samples.facet "specificationFilter_1" "azul"]
              Samples.listing_url "c,specificationFilter_1")
    as [filter| |] eqn:Hfilter; [|vm_compute in Hfilter; discriminate..].
  exists filter. split; [done|].
  destruct (legacyFacetToFilter_selected (H := Samples.sample_standard)
              "Cor" [Samples.facet "specificationFilter_1" "azul"]
              Samples.listing_url "c,specificationFilter_1") as [_ Htoggles].
  destruct (Htoggles filter Hfilter) as (_ & _ & _ & Hvalues).
  apply Forall2_cons_inv_l in Hvalues as (toggle & rest & Htoggle & Hrest & ->).
  apply Forall2_nil_inv_l in Hrest as ->.
  destruct Htoggle as (_ & _ & _ & Hselected & _).
  rewrite fmap_cons. f_equal. apply Hselected. split.
  - apply (list_elem_of_lookup_2 _ 1). reflexivity.
  - apply (list_elem_of_lookup_2 _ 2). vm_compute. reflexivity.
Defined.

(** X20 on the legacy sample product, whose category paths are
    [/Calcados/Tenis/] and [/Calcados/]: the page has the category of the
    last path. *)
Lemma toProductPage_mutation_witness :
  ∃ page,
    (toProductPage (H := Samples.sample_slugify)
                   (H0 := Samples.sample_standard)
                   Samples.legacy_product None Samples.request).1 = Ok page
    ∧ category (product page) = "Calcados".
Proof.
  destruct (toProductPage (H := Samples.sample_slugify)
                          (H0 := Samples.sample_standard)
                          Samples.legacy_product None Samples.request).1
    as [page| |] eqn:Hpage; [|vm_compute in Hpage; discriminate..].
  exists page. split; [done|].
  destruct (toProductPage_mutation (H0 := Samples.sample_slugify)
                                   _ _ _ page Hpage)
    as ((path & Hpath & ->) & _).
  injection Hpath as <-. reflexivity.
Defined.
